(** * package_simde: the amalgamation of SIMDe headers

    A shallow embedding of [package_simde.py]: the include pattern
    [amalgamate_include], the recursive inliner [amalgamate] and the
    archive builder [main], followed by the properties of the tool's
    specification that they satisfy. *)

From Stdlib Require Import NArith List Lia String Ascii Bool Arith DecimalString.
From stdpp Require Import base option list gmap.
Import ListNotations.
Local Open Scope N_scope.
Local Open Scope list_scope.

(** ** Python strings

    A Python [str] is a sequence of Unicode code points.  Paths, lines
    and the text written to a stream are all [str]. *)

Definition pystr := list N.
Definition path := pystr.

Definition py (s : string) : pystr :=
  List.map N_of_ascii (list_ascii_of_string s).

Definition LF : N := 10.
Definition DQUOTE : N := 34.
Definition HASH : N := 35.
Definition RPAREN : N := 41.
Definition SLASH : N := 47.
Definition BACKSLASH : N := 92.

(** [str.replace] for one-character arguments, as in
    [.replace('\\', '/')]. *)
Definition replace (old new : N) (s : pystr) : pystr :=
  List.map (fun c => if c =? old then new else c) s.

(** ** The regular expression engine

    The fragment of Python's [re] that the pattern of line 35 uses:
    anchors, literal characters, a character set taken once or under a
    greedy [*] or [+], and one capturing group. *)

Module Re.

(** [\s] on a [str] pattern is [str.isspace]. *)
Definition isspace (c : N) : bool :=
  ((9 <=? c) && (c <=? 13)) || ((28 <=? c) && (c <=? 32))
  || (c =? 133) || (c =? 160) || (c =? 5760)
  || ((8192 <=? c) && (c <=? 8202))
  || (c =? 8232) || (c =? 8233) || (c =? 8239) || (c =? 8287)
  || (c =? 12288).

Inductive charset :=
| Space                (* \s   *)
| NotChar (c : N).     (* [^c] *)

Definition charset_mem (cs : charset) (x : N) : bool :=
  match cs with
  | Space => isspace x
  | NotChar c => negb (x =? c)
  end.

Inductive node :=
| Bol                  (* ^  *)
| Eol                  (* $  *)
| Lit (c : N)          (* a literal character *)
| One (cs : charset)   (* one character of a set *)
| Star (cs : charset)  (* greedy  cs*  *)
| Plus (cs : charset)  (* greedy  cs+  *)
| GroupOpen            (* (  *)
| GroupClose.          (* )  *)

Definition regex := list node.

(** The span of group 1, as positions in the subject. *)
Definition span := (nat * nat)%type.

(** Greedy repetition with backtracking: take one more character of the
    set while that leads to a match, otherwise hand over to the
    continuation [k] at the current position. *)
Fixpoint greedy (k : pystr -> nat -> option span) (cs : charset)
    (s : pystr) (i : nat) : option span :=
  match s with
  | x :: s' =>
      if charset_mem cs x then
        match greedy k cs s' (S i) with
        | Some m => Some m
        | None => k s i
        end
      else k s i
  | [] => k s i
  end.

(** [run r s i g]: match [r] against the rest [s] of the subject, which
    starts at position [i]; [g] is the span recorded so far. *)
Fixpoint run (r : regex) (s : pystr) (i : nat) (g : span) : option span :=
  match r with
  | [] => Some g
  | Bol :: r' => if Nat.eqb i 0 then run r' s i g else None
  | Eol :: r' =>
      match s with
      | [] => run r' s i g
      | [c] => if c =? LF then run r' s i g else None
      | _ => None
      end
  | Lit c :: r' =>
      match s with
      | x :: s' => if x =? c then run r' s' (S i) g else None
      | [] => None
      end
  | One cs :: r' =>
      match s with
      | x :: s' => if charset_mem cs x then run r' s' (S i) g else None
      | [] => None
      end
  | Star cs :: r' => greedy (fun s i => run r' s i g) cs s i
  | Plus cs :: r' =>
      match s with
      | x :: s' =>
          if charset_mem cs x
          then greedy (fun s i => run r' s i g) cs s' (S i)
          else None
      | [] => None
      end
  | GroupOpen :: r' => run r' s i (i, snd g)
  | GroupClose :: r' => run r' s i (fst g, i)
  end.

Definition literal (s : string) : regex := List.map Lit (py s).

(** [pattern.match(line)], reduced to what the caller uses: [None] when
    there is no match, [group(1)] otherwise. *)
Definition match_group1 (r : regex) (line : pystr) : option pystr :=
  match run r line 0%nat (0%nat, 0%nat) with
  | Some (a, b) => Some (take (b - a) (drop a line))
  | None => None
  end.

Definition all_in (cs : charset) (w : pystr) : Prop :=
  Forall (fun x => charset_mem cs x = true) w.

(** What a regex denotes: the ways to cut the subject along its nodes. *)
Fixpoint sem (r : regex) (s : pystr) (i : nat) (g out : span) : Prop :=
  match r with
  | [] => out = g
  | Bol :: r' => i = 0%nat /\ sem r' s i g out
  | Eol :: r' => (s = [] \/ s = [LF]) /\ sem r' s i g out
  | Lit c :: r' => exists s', s = c :: s' /\ sem r' s' (S i) g out
  | One cs :: r' =>
      exists x s', s = x :: s' /\ charset_mem cs x = true /\ sem r' s' (S i) g out
  | Star cs :: r' =>
      exists w s', s = w ++ s' /\ all_in cs w /\ sem r' s' (i + length w)%nat g out
  | Plus cs :: r' =>
      exists w s', s = w ++ s' /\ w <> [] /\ all_in cs w
                   /\ sem r' s' (i + length w)%nat g out
  | GroupOpen :: r' => sem r' s i (i, snd g) out
  | GroupClose :: r' => sem r' s i (fst g, i) out
  end.

End Re.

(** ** Line 35: the include pattern

    [re.compile(r'^\s*#\s*include\s+\"([^)]+)\"\s$')] *)

Definition amalgamate_include : Re.regex :=
  [Re.Bol; Re.Star Re.Space; Re.Lit HASH; Re.Star Re.Space]
  ++ Re.literal "include"
  ++ [Re.Plus Re.Space; Re.Lit DQUOTE;
      Re.GroupOpen; Re.Plus (Re.NotChar RPAREN); Re.GroupClose;
      Re.Lit DQUOTE; Re.One Re.Space; Re.Eol].

Definition include_match (source_line : pystr) : option pystr :=
  Re.match_group1 amalgamate_include source_line.

Definition q (s : string) : pystr := DQUOTE :: py s ++ [DQUOTE].

(** ** The operating system, as [amalgamate] sees it

    [os.path.realpath], [os.path.dirname], [os.path.join],
    [os.path.relpath] and [os.path.exists] are functions of a path;
    [open(filename, 'r', encoding='utf-8')] either raises or gives the
    lines that iterating the file object yields, each with its line
    ending as the text layer hands it over.  [path_exists] and
    [open_read] are independent, so a file may pass the existence check
    and still fail to open.  The functions do not change during a run. *)

Inductive exn :=
| FileNotFoundError
| OtherError.          (* any other exception of [open] *)

Record OS := {
  realpath : path -> path;
  dirname : path -> path;
  join : path -> path -> path;
  relpath : path -> path -> path;      (* relpath p start *)
  path_exists : path -> bool;
  open_read : path -> exn + list pystr;
}.

(** ** The objects [amalgamate] mutates

    [stream] is the text written so far to the output stream,
    [already_included] the Python list shared by one run, [console]
    the lines printed on standard output. *)

Record state := {
  stream : pystr;
  already_included : list path;
  console : list pystr;
}.

Definition write (text : pystr) (st : state) : state :=
  {| stream := stream st ++ text;
     already_included := already_included st;
     console := console st |}.

Definition append_included (p : path) (st : state) : state :=
  {| stream := stream st;
     already_included := already_included st ++ [p];
     console := console st |}.

Definition print (text : pystr) (st : state) : state :=
  {| stream := stream st;
     already_included := already_included st;
     console := console st ++ [text] |}.

(** A call returns, raises, or is cut off by the recursion bound of the
    embedding. *)
Inductive outcome (S : Type) :=
| Done (st : S)
| Raised (e : exn) (st : S)
| OutOfFuel.
Arguments Done {S} st.
Arguments Raised {S} e st.
Arguments OutOfFuel {S}.

Definition result := outcome state.

Definition try_except_FileNotFoundError
    (body : result) (handler : state -> result) : result :=
  match body with
  | Raised FileNotFoundError st => handler st
  | r => r
  end.

(** [for x in xs: body], where the body may raise. *)
Fixpoint for_each {A S : Type} (body : A -> S -> outcome S)
    (xs : list A) (st : S) : outcome S :=
  match xs with
  | [] => Done st
  | x :: rest =>
      match body x st with
      | Done st' => for_each body rest st'
      | r => r
      end
  end.

Definition banner_notice : pystr :=
  py "/* AUTOMATICALLY GENERATED FILE, DO NOT MODIFY */" ++ [LF].
Definition banner_version (git_id : pystr) : pystr :=
  py "/* " ++ git_id ++ py " */" ++ [LF].
Definition begin_marker (rel_path_str : pystr) : pystr :=
  py "/* :: Begin " ++ rel_path_str ++ py " :: */" ++ [LF].
Definition end_marker (rel_path_str : pystr) : pystr :=
  py "/* :: End " ++ rel_path_str ++ py " :: */" ++ [LF].
Definition error_line (filename : path) : pystr :=
  py "/* ERROR: Could not find file " ++ filename ++ py " */" ++ [LF].
Definition warning_line (filename : path) : pystr :=
  py "Warning: Could not find file to amalgamate: " ++ filename.

Section Amalgamate.

Variable os : OS.
Variable src_root : path.
Variable git_id : pystr.

(** Lines 59-68: the body of the loop over the lines of a file, with
    the recursive call abstracted as [recurse]. *)
Definition loop_body (recurse : path -> state -> result) (srcdir : path)
    (source_line : pystr) (st : state) : result :=
  match include_match source_line with
  | Some group1 =>
      let inc_path := join os srcdir group1 in
      if path_exists os inc_path then recurse inc_path st
      else Done (write source_line st)
  | None => Done (write source_line st)
  end.

(** Lines 48-49. *)
Definition banners (st : state) : state :=
  write (banner_version git_id) (write banner_notice st).

Definition rel_path_of (full_path : path) : pystr :=
  replace BACKSLASH SLASH (relpath os full_path src_root).

(** Lines 71-72. *)
Definition not_found_handler (filename : path) (st : state) : result :=
  Done (write (error_line filename) (print (warning_line filename) st)).

(** Lines 43-72. *)
Fixpoint amalgamate (fuel : nat) (filename : path) (st : state) : result :=
  match fuel with
  | O => OutOfFuel
  | S fuel' =>
      let full_path := realpath os filename in
      let srcdir := dirname os full_path in
      let st := banners st in
      if decide (full_path ∈ already_included st) then Done st
      else
        let st := append_included full_path st in
        try_except_FileNotFoundError
          (match open_read os filename with
           | inl e => Raised e st
           | inr input_file =>
               let rel_path_str := rel_path_of full_path in
               let st := write (begin_marker rel_path_str) st in
               match
                 for_each (loop_body (amalgamate fuel') srcdir) input_file st
               with
               | Done st => Done (write (end_marker rel_path_str) st)
               | r => r
               end
           end)
          (not_found_handler filename)
  end.

End Amalgamate.

(** ** The archive builder *)

(** Lines 10-33. *)
Definition EXPECTED_FILES : list path :=
  List.map py
    [ "arm/neon.h"; "arm/sve.h"; "mips/msa.h"; "wasm/relaxed-simd.h";
      "wasm/simd128.h"; "x86/aes.h"; "x86/avx.h"; "x86/avx2.h";
      "x86/avx512.h"; "x86/clmul.h"; "x86/f16c.h"; "x86/fma.h";
      "x86/gfni.h"; "x86/mmx.h"; "x86/sse.h"; "x86/sse2.h"; "x86/sse3.h";
      "x86/sse4.1.h"; "x86/sse4.2.h"; "x86/ssse3.h"; "x86/svml.h";
      "x86/xop.h" ]%string.

(** What [main] needs beyond [OS]: [os.path.abspath], [os.getcwd()] and
    the outcome of [git rev-parse HEAD] in a directory ([None] when
    [subprocess.check_output] or the decoding raises). *)
Record Env := {
  env_os :> OS;
  abspath : path -> path;
  getcwd : path;
  git_rev_parse : path -> option pystr;
}.

(** Lines 37-41. *)
Definition get_git_id (env : Env) (srcdir : path) : pystr :=
  match git_rev_parse env srcdir with
  | Some out => out
  | None => py "unknown"
  end.

(** The parsed command line. *)
Record Args := {
  version : pystr;
  source : path;                (* default 'simde' *)
  output_dir : option path;
  git_hash : option pystr;
}.

(** [x if x else d] on an optional string: [None] and the empty string
    are both false. *)
Definition or_else (x : option pystr) (d : pystr) : pystr :=
  match x with
  | Some (c :: s) => c :: s
  | _ => d
  end.

(** A file of the staging tree: text written through a stream, or a
    copy of another file. *)
Inductive file :=
| Text (content : pystr)
| CopyOf (src : path).

(** The part of the disk that [main] writes: the files below
    [base_dir], by path; the archive, once written, as its entries in
    the order of their addition; and the console. *)
Record disk := {
  tree : gmap path file;
  archive : option (path * list (path * file));
  out : list pystr;
}.

Definition say (text : pystr) (d : disk) : disk :=
  {| tree := tree d; archive := archive d; out := out d ++ [text] |}.

Definition put (p : path) (f : file) (d : disk) : disk :=
  {| tree := <[p := f]> (tree d); archive := archive d; out := out d |}.

Definition decimal (n : nat) : pystr :=
  py (NilEmpty.string_of_uint (Nat.to_uint n)).

Section Main.

Variable env : Env.
(** The recursion bound handed to every call of [amalgamate]. *)
Variable fuel : nat.

(** Lines 108-122: one configured header.  The destination is opened
    for writing before [amalgamate] runs, so it holds whatever was
    written when [amalgamate] raises. *)
Definition amalgamate_header (source_dir output_simde_dir repo_root : path)
    (git_id : pystr) (rel_path : path) (d : disk) : outcome disk :=
  let source_path := join env source_dir rel_path in
  let dest_path := join env output_simde_dir rel_path in
  if path_exists env source_path then
    match
      amalgamate env repo_root git_id fuel source_path
        {| stream := []; already_included := []; console := out d |}
    with
    | Done st =>
        Done {| tree := <[dest_path := Text (stream st)]> (tree d);
                archive := archive d; out := console st |}
    | Raised e st =>
        Raised e {| tree := <[dest_path := Text (stream st)]> (tree d);
                    archive := archive d; out := console st |}
    | OutOfFuel => OutOfFuel
    end
  else
    Done (say (py "Warning: Source file '" ++ source_path
               ++ py "' not found. Skipping.") d).

(** Lines 128-133: every file below [base_dir], under its path relative
    to [output_dir]. *)
Definition zip_entries (output_dir : path) (t : gmap path file)
    : list (path * file) :=
  List.map (fun '(file_path, f) => (relpath env file_path output_dir, f))
    (map_to_list t).

(** Lines 74-135, for a list of configured headers.  Lines 92-97 leave
    an empty tree below [base_dir] and no archive. *)
Definition main_with (files : list path) (args : Args) : outcome disk :=
  let source_dir := abspath env (source args) in
  let output_dir := or_else (output_dir args) (py ".") in
  let base_dir_name := py "simde-" ++ version args in
  let base_dir := join env output_dir base_dir_name in
  let output_simde_dir := join env base_dir (py "simde") in
  let archive_name :=
    join env output_dir (py "simde-" ++ version args ++ py ".zip") in
  let d := {| tree := ∅; archive := None; out := [] |} in
  let git_id :=
    match git_hash args with
    | Some (c :: s) => c :: s
    | _ => get_git_id env source_dir
    end in
  let d :=
    say (py "Amalgamating " ++ decimal (length files)
         ++ py " specific headers from '" ++ source_dir ++ py "'...") d in
  let repo_root := getcwd env in
  match
    for_each (amalgamate_header source_dir output_simde_dir repo_root git_id)
      files d
  with
  | Done d =>
      let d :=
        if path_exists env (py "COPYING")
        then put (join env base_dir (py "COPYING")) (CopyOf (py "COPYING")) d
        else d in
      let d := say (py "Creating archive " ++ archive_name ++ py "...") d in
      let d :=
        {| tree := tree d;
           archive := Some (archive_name, zip_entries output_dir (tree d));
           out := out d |} in
      Done (say (py "Successfully created " ++ archive_name) d)
  | r => r
  end.

Definition main : Args -> outcome disk := main_with EXPECTED_FILES.

End Main.

(** ** A concrete operating system

    POSIX path functions over a table of files, for a tree without
    symbolic links, so that [realpath] is [normpath] of the path joined
    to the working directory.  A table entry, keyed by a normalised
    absolute path, holds what [open] does on the file.  It instantiates
    [OS] and [Env] in the examples below. *)

Module Posix.

(** [posixpath.join] of two components. *)
Definition join (a b : path) : path :=
  match b with
  | c :: _ =>
      if c =? SLASH then b
      else match last a with
           | None => b
           | Some l => if l =? SLASH then a ++ b else a ++ SLASH :: b
           end
  | [] =>
      match last a with
      | None => b
      | Some l => if l =? SLASH then a ++ b else a ++ SLASH :: b
      end
  end.

Fixpoint split_slash (cur : pystr) (s : pystr) : list pystr :=
  match s with
  | [] => [cur]
  | c :: s' =>
      if c =? SLASH then cur :: split_slash [] s'
      else split_slash (cur ++ [c]) s'
  end.

Definition push_component (stack : list pystr) (comp : pystr) : list pystr :=
  if decide (comp = []) then stack
  else if decide (comp = py ".") then stack
  else if decide (comp = py "..") then removelast stack
  else stack ++ [comp].

Definition components (p : path) : list pystr :=
  List.fold_left push_component (split_slash [] p) [].

Definition unsplit (comps : list pystr) : path :=
  match comps with
  | [] => [SLASH]
  | _ => List.concat (List.map (fun c => SLASH :: c) comps)
  end.

(** [posixpath.normpath] of an absolute path. *)
Definition normpath (p : path) : path := unsplit (components p).

(** [posixpath.dirname] of a normalised absolute path. *)
Definition dirname (p : path) : path := unsplit (removelast (components p)).

Fixpoint strip_prefix {A} `{EqDecision A} (pre s : list A) : option (list A) :=
  match pre, s with
  | [], _ => Some s
  | a :: pre', b :: s' => if decide (a = b) then strip_prefix pre' s' else None
  | _ :: _, [] => None
  end.

Definition table := list (path * (exn + list pystr)).

Fixpoint lookup (t : table) (p : path) : option (exn + list pystr) :=
  match t with
  | [] => None
  | (k, v) :: t' => if decide (k = p) then Some v else lookup t' p
  end.

Section World.

Variable cwd : path.
Variable t : table.

Definition abspath (p : path) : path := normpath (join cwd p).

(** [posixpath.relpath p start] for [p] at or below [start]; other
    paths are returned in absolute form. *)
Definition relpath (p start : path) : path :=
  match strip_prefix (components (join cwd start)) (components (join cwd p)) with
  | Some [] => py "."
  | Some (c :: rest) => c ++ List.concat (List.map (fun c => SLASH :: c) rest)
  | None => abspath p
  end.

Definition os : OS :=
  Build_OS abspath dirname join relpath
    (fun p => bool_decide (is_Some (lookup t (abspath p))))
    (fun p =>
       match lookup t (abspath p) with
       | Some r => r
       | None => inl FileNotFoundError
       end).

Definition env (git : option pystr) : Env :=
  Build_Env os abspath cwd (fun _ => git).

End World.

End Posix.


(** ** The two readings of an include line

    [include_shape] spells out what the pattern of line 35 accepts.
    [spec_include_line] is the specification's wording: optional
    leading whitespace, the [#include] directive, a double-quoted path,
    optional trailing whitespace. *)

Definition spaces (w : pystr) : Prop :=
  Forall (fun x => Re.isspace x = true) w.

Definition include_shape (line group1 : pystr) : Prop :=
  exists ws1 ws2 ws3 t e,
    line = ws1 ++ HASH :: ws2 ++ py "include" ++ ws3
               ++ DQUOTE :: group1 ++ DQUOTE :: t :: e
    /\ spaces ws1 /\ spaces ws2 /\ spaces ws3 /\ ws3 <> []
    /\ group1 <> [] /\ (RPAREN ∉ group1)
    /\ Re.isspace t = true /\ (e = [] \/ e = [LF]).

Definition spec_include_line (line : pystr) : Prop :=
  exists lead gap quoted trail,
    line = lead ++ py "#include" ++ gap ++ DQUOTE :: quoted ++ DQUOTE :: trail
    /\ spaces lead /\ spaces gap /\ spaces trail /\ DQUOTE ∉ quoted.

(** ** A small source tree

    [sse2.h] and [mmx.h] include each other and both include
    [simde-common.h]; [gone.h] passes the existence check but is not
    found by [open]; [locked.h] exists but [open] raises another
    error. *)

Module Demo.

Definition inc (s : string) : pystr := py "#include " ++ q s ++ [LF].

Definition files : Posix.table :=
  [ (py "/repo/simde/x86/sse2.h",
     inr [ py "/* sse2 */" ++ [LF];
           inc "mmx.h";
           inc "../simde-common.h";
           py "#include <stdint.h>" ++ [LF];
           inc "absent.h";
           inc "gone.h";
           inc "gone.h";
           py "#include " ++ q "mmx.h" ++ py " // again" ++ [LF] ]);
    (py "/repo/simde/x86/mmx.h",
     inr [ inc "../simde-common.h"; inc "sse2.h"; py "/* mmx */" ++ [LF] ]);
    (py "/repo/simde/simde-common.h", inr [ py "/* common */" ++ [LF] ]);
    (py "/repo/simde/x86/gone.h", inl FileNotFoundError);
    (py "/repo/simde/x86/locked.h", inl OtherError);
    (py "/repo/COPYING", inr [ py "license" ++ [LF] ]) ].

Definition cwd : path := py "/repo".
Definition os : OS := Posix.os cwd files.
Definition env : Env := Posix.env cwd files (Some (py "0123abc")).
Definition git_id : pystr := py "0123abc".

Definition sse2 : path := py "/repo/simde/x86/sse2.h".
Definition mmx : path := py "/repo/simde/x86/mmx.h".
Definition common : path := py "/repo/simde/simde-common.h".
Definition gone : path := py "/repo/simde/x86/gone.h".

Definition start : state :=
  {| stream := []; already_included := []; console := [] |}.

Definition run (filename : path) (st : state) : result :=
  amalgamate os cwd git_id 8 filename st.

(** The state after amalgamating [sse2.h] from an empty record. *)
Definition after_sse2 : state :=
  Eval vm_compute in
    match run sse2 start with
    | Done st => st
    | _ => start
    end.

(** All canonical paths of the tree. *)
Definition universe : list path := List.map fst files.

Definition args : Args :=
  {| version := py "0.8.4"; source := py "simde";
     output_dir := Some (py "/out"); git_hash := None |}.

(** What [main] leaves on disk in the small tree, where only [sse2.h]
    and [mmx.h] of the configured headers exist. *)
Definition small : disk :=
  Eval vm_compute in
    match main env 8 args with
    | Done d => d
    | _ => {| tree := ∅; archive := None; out := [] |}
    end.

(** A tree with all the configured headers, each including
    [simde-common.h], and a license file. *)
Definition all_headers : Posix.table :=
  List.map
    (fun rel_path =>
       (py "/repo/simde/" ++ rel_path,
        inr [ inc "../simde-common.h"; py "/* " ++ rel_path ++ py " */" ++ [LF] ]))
    EXPECTED_FILES
  ++ [ (py "/repo/simde/simde-common.h", inr [ py "/* common */" ++ [LF] ]);
       (py "/repo/COPYING", inr [ py "license" ++ [LF] ]) ].

Definition full_env : Env := Posix.env cwd all_headers (Some (py "0123abc")).

(** What [main] leaves on disk in that tree. *)
Definition built : disk :=
  Eval vm_compute in
    match main full_env 4 args with
    | Done d => d
    | _ => {| tree := ∅; archive := None; out := [] |}
    end.

Definition built_entries : list (path * file) :=
  Eval vm_compute in
    match archive built with
    | Some (_, entries) => entries
    | None => []
    end.

End Demo.

(** ** Notions used in the statements *)

(** The state a call ends in, when it returns or raises. *)
Definition final {S : Type} (r : outcome S) : option S :=
  match r with
  | Done st | Raised _ st => Some st
  | OutOfFuel => None
  end.

(** [st'] continues [st]: the stream, the record and the console only
    grow at their ends. *)
Definition extends (st st' : state) : Prop :=
  stream st `prefix_of` stream st'
  /\ already_included st `prefix_of` already_included st'
  /\ console st `prefix_of` console st'.

(** The paths of a finite universe that are not on record yet. *)
Definition unseen (U already : list path) : nat :=
  length (filter (fun u => u ∉ already) U).

(** The state after the two banner lines and nothing else. *)
Definition banners_only (git_id : pystr) (st : state) : state :=
  {| stream := stream st ++ banner_notice ++ banner_version git_id;
     already_included := already_included st;
     console := console st |}.

(** From [st] to [st'] the handler ran for the files [fs], in this
    order. *)
Definition warned (os : OS) (st st' : state) : Prop :=
  extends st st'
  /\ exists fs,
       console st' = console st ++ List.map warning_line fs
       /\ NoDup (List.map (realpath os) fs)
       /\ forall g, g ∈ fs ->
            (realpath os g ∉ already_included st)
            /\ realpath os g ∈ already_included st'
            /\ open_read os g = inl FileNotFoundError.

(** Two states with the same stream and the same record. *)
Definition same_output (st1 st2 : state) : Prop :=
  stream st1 = stream st2 /\ already_included st1 = already_included st2.

Definition same_result (r1 r2 : result) : Prop :=
  match r1, r2 with
  | Done a, Done b => same_output a b
  | Raised e a, Raised e' b => e = e' /\ same_output a b
  | OutOfFuel, OutOfFuel => True
  | _, _ => False
  end.

(** The state a run starts in: nothing written, nothing on record. *)
Definition fresh_run (c : list pystr) : state :=
  {| stream := []; already_included := []; console := c |}.

Definition text_of (r : result) : pystr :=
  match r with
  | Done st | Raised _ st => stream st
  | OutOfFuel => []
  end.

Section MainPaths.

Variable env : Env.
Variable fuel : nat.
Variable args : Args.

(** The paths that [main] computes in lines 83-90 and 99-105. *)
Definition source_dir_of : path := abspath env (source args).
Definition output_dir_of : path := or_else (output_dir args) (py ".").
Definition base_dir_of : path :=
  join env output_dir_of (py "simde-" ++ version args).
Definition simde_dir_of : path := join env base_dir_of (py "simde").
Definition archive_name_of : path :=
  join env output_dir_of (py "simde-" ++ version args ++ py ".zip").
Definition git_id_of : pystr :=
  match git_hash args with
  | Some (c :: s) => c :: s
  | _ => get_git_id env source_dir_of
  end.
Definition source_of (rel_path : path) : path := join env source_dir_of rel_path.
Definition dest_of (rel_path : path) : path := join env simde_dir_of rel_path.
Definition license_dest : path := join env base_dir_of (py "COPYING").

(** One header amalgamated on its own, from an empty record. *)
Definition standalone (rel_path : path) : result :=
  amalgamate env (getcwd env) git_id_of fuel (source_of rel_path) (fresh_run []).

Definition header_file (rel_path : path) : path * file :=
  (dest_of rel_path, Text (text_of (standalone rel_path))).

Definition present (files : list path) : list path :=
  filter (fun rel_path => path_exists env (source_of rel_path) = true) files.

Definition license_files : list (path * file) :=
  if path_exists env (py "COPYING")
  then [(license_dest, CopyOf (py "COPYING"))]
  else [].

Definition archive_entry (output_dir : path) (pf : path * file) : path * file :=
  (relpath env pf.1 output_dir, pf.2).

(** The staging tree after one more header. *)
Definition add_header (t : gmap path file) (rel_path : path) : gmap path file :=
  <[dest_of rel_path := Text (text_of (standalone rel_path))]> t.

End MainPaths.

(** The entry names of the archive of [d] are the paths of the staged
    files relative to [root]. *)
Definition names_relative_to (env : Env) (root : path) (d : disk) : Prop :=
  exists name entries,
    archive d = Some (name, entries)
    /\ entries.*1 ≡ₚ (fun p => relpath env p root) <$> (map_to_list (tree d)).*1.

(** The include targets of a file: for each line that the pattern
    matches, the joined path when it exists (lines 59-62). *)
Definition line_target (os : OS) (srcdir : path) (source_line : pystr)
    : option path :=
  match include_match source_line with
  | Some group1 =>
      if path_exists os (join os srcdir group1)
      then Some (join os srcdir group1)
      else None
  | None => None
  end.

Definition include_targets (os : OS) (filename : path) : list path :=
  match open_read os filename with
  | inr input_file =>
      omap (line_target os (dirname os (realpath os filename))) input_file
  | inl _ => []
  end.

(** [reaches os f g]: [g] is [f] or a nested include target of [f]. *)
Inductive reaches (os : OS) : path -> path -> Prop :=
| reaches_here f : reaches os f f
| reaches_include f k g :
    k ∈ include_targets os f -> reaches os k g -> reaches os f g.

(** [text] is a full expansion of the file [g]: the two banner lines,
    the begin marker of its canonical path, what the loop over all its
    lines writes, and the end marker. *)
Definition full_expansion (os : OS) (src_root : path) (git_id : pystr)
    (g : path) (text : pystr) : Prop :=
  exists fuel input_file st st' written,
    open_read os g = inr input_file
    /\ for_each (loop_body os (amalgamate os src_root git_id fuel)
                   (dirname os (realpath os g))) input_file st = Done st'
    /\ stream st' = stream st ++ written
    /\ text = banner_notice ++ banner_version git_id
              ++ begin_marker (rel_path_of os src_root (realpath os g))
              ++ written
              ++ end_marker (rel_path_of os src_root (realpath os g)).


(** Two names of one canonical path open the same file. *)
Definition consistent (os : OS) : Prop :=
  forall a b, realpath os a = realpath os b -> open_read os a = open_read os b.

(** What a completed stretch of a run owes to a canonical path [T] that
    it put on record: a name [g] of [T] whose include targets are all
    on record at the end, and, when [g] opens, a full expansion of [g]
    in the text written. *)
Definition visited (os : OS) (src_root : path) (git_id : pystr)
    (T : path) (st st' : state) : Prop :=
  exists g,
    realpath os g = T
    /\ (forall k, k ∈ include_targets os g ->
          realpath os k ∈ already_included st')
    /\ (forall input_file, open_read os g = inr input_file ->
          exists block before after,
            full_expansion os src_root git_id g block
            /\ stream st' = stream st ++ before ++ block ++ after).

Definition visits (os : OS) (src_root : path) (git_id : pystr)
    (st st' : state) : Prop :=
  extends st st'
  /\ forall T, T ∈ already_included st' -> T ∉ already_included st ->
       visited os src_root git_id T st st'.

(** [st1] is [st2] with [before] written ahead of its stream; the
    records are the same and the consoles are free. *)
Definition framed (before : pystr) (st1 st2 : state) : Prop :=
  stream st1 = before ++ stream st2
  /\ already_included st1 = already_included st2.

Definition framed_result (before : pystr) (r1 r2 : result) : Prop :=
  match r1, r2 with
  | Done a, Done b => framed before a b
  | Raised e a, Raised e' b => e = e' /\ framed before a b
  | OutOfFuel, OutOfFuel => True
  | _, _ => False
  end.

(** The state with the record of [st] and nothing written or printed. *)
Definition record_only (st : state) : state :=
  {| stream := []; already_included := already_included st; console := [] |}.

(** A step that keeps a duplicate-free record duplicate-free. *)
Definition nodup_kept (st st' : state) : Prop :=
  NoDup (already_included st) -> NoDup (already_included st').

(** Every path that the stretch from [st] to [st'] put on record is the
    canonical path of a file that [f] reaches. *)
Definition reached_from (os : OS) (f : path) (st st' : state) : Prop :=
  extends st st'
  /\ forall T, T ∈ already_included st' -> T ∉ already_included st ->
       exists g, reaches os f g /\ realpath os g = T.

#[global] Instance exn_eq_dec : EqDecision exn.
Proof. solve_decision. Defined.

(** [main] around its loop: the disk before the first header (lines
    92-101) and the steps after the last one (lines 124-135). *)
Definition main_start (env : Env) (args : Args) (files : list path) : disk :=
  say (py "Amalgamating " ++ decimal (length files)
       ++ py " specific headers from '" ++ source_dir_of env args ++ py "'...")
    {| tree := ∅; archive := None; out := [] |}.

Definition main_finish (env : Env) (args : Args) (r : outcome disk)
    : outcome disk :=
  match r with
  | Done d =>
      let d :=
        if path_exists env (py "COPYING")
        then put (license_dest env args) (CopyOf (py "COPYING")) d
        else d in
      let d :=
        say (py "Creating archive " ++ archive_name_of env args ++ py "...") d in
      let d :=
        {| tree := tree d;
           archive := Some (archive_name_of env args,
                            zip_entries env (output_dir_of args) (tree d));
           out := out d |} in
      Done (say (py "Successfully created " ++ archive_name_of env args) d)
  | r => r
  end.

(** Closed decidable goals, by evaluation. *)
Ltac by_decide := apply (bool_decide_unpack _); vm_compute; exact I.

(** * Properties *)

(** ** The definitions on small inputs *)

Example include_match_plain :
  include_match (py "#include " ++ q "foo.h" ++ [LF]) = Some (py "foo.h").
Proof. reflexivity. Qed.

Example include_match_indented :
  include_match (py "  #  include   " ++ q "a/b.h" ++ py " " ++ [LF])
  = Some (py "a/b.h").
Proof. reflexivity. Qed.

Example include_match_two_blanks :
  include_match (py "#include " ++ q "foo.h" ++ py "  " ++ [LF]) = None.
Proof. reflexivity. Qed.

Example include_match_no_newline :
  include_match (py "#include " ++ q "foo.h") = None.
Proof. reflexivity. Qed.

Example include_match_angle :
  include_match (py "#include <stdio.h>" ++ [LF]) = None.
Proof. reflexivity. Qed.

Example include_match_comment :
  include_match (py "#include " ++ q "foo.h" ++ py " /* x */" ++ [LF]) = None.
Proof. reflexivity. Qed.

Example include_match_quoted_comment :
  include_match (py "#include " ++ q "a.h" ++ py " // see " ++ q "b.h" ++ [LF])
  = Some (py "a.h" ++ [DQUOTE] ++ py " // see " ++ [DQUOTE] ++ py "b.h").
Proof. reflexivity. Qed.

Example posix_join_relative :
  Posix.join (py "/repo/simde/x86") (py "../simde-common.h")
  = py "/repo/simde/x86/../simde-common.h".
Proof. reflexivity. Qed.

Example posix_normpath_dotdot :
  Posix.normpath (py "/repo/simde/x86/../simde-common.h")
  = py "/repo/simde/simde-common.h".
Proof. reflexivity. Qed.

Example posix_dirname_file :
  Posix.dirname (py "/repo/simde/x86/sse2.h") = py "/repo/simde/x86".
Proof. reflexivity. Qed.

(** A header that includes a local file: the include line is replaced
    by the banner and the expansion of that file. *)
Example amalgamate_nested :
  let t := [ (py "/repo/x86/sse2.h",
              inr [py "a" ++ [LF]; Demo.inc "mmx.h"; py "b" ++ [LF]]);
             (py "/repo/x86/mmx.h", inr [py "m" ++ [LF]]) ] in
  amalgamate (Posix.os (py "/repo") t) (py "/repo") (py "id") 2
    (py "x86/sse2.h") (fresh_run [])
  = Done {| stream :=
              banner_notice ++ banner_version (py "id")
              ++ begin_marker (py "x86/sse2.h")
              ++ py "a" ++ [LF]
              ++ banner_notice ++ banner_version (py "id")
              ++ begin_marker (py "x86/mmx.h")
              ++ py "m" ++ [LF]
              ++ end_marker (py "x86/mmx.h")
              ++ py "b" ++ [LF]
              ++ end_marker (py "x86/sse2.h");
            already_included := [py "/repo/x86/sse2.h"; py "/repo/x86/mmx.h"];
            console := [] |}.
Proof. vm_compute. reflexivity. Qed.

(** With too little fuel the embedding gives up; with enough it does
    not, cycle or not. *)
Example amalgamate_cycle_fuel :
  Demo.run Demo.sse2 Demo.start <> OutOfFuel
  /\ amalgamate Demo.os Demo.cwd Demo.git_id 2 Demo.sse2 Demo.start = OutOfFuel.
Proof. split; [vm_compute; discriminate | vm_compute; reflexivity]. Qed.

(** A file on which [open] raises another error makes the call raise. *)
Example amalgamate_other_error :
  exists st,
    Demo.run (py "simde/x86/locked.h") Demo.start = Raised OtherError st.
Proof. eexists. vm_compute. reflexivity. Qed.

(** ** The matcher against a declarative reading of the pattern *)

Module ReFacts.
Import Re.

Lemma greedy_sound k cs s i m :
  greedy k cs s i = Some m ->
  exists w s', s = w ++ s' /\ all_in cs w /\ k s' (i + length w)%nat = Some m.
Proof.
  revert i. induction s as [|x s IH]; intros i H; simpl in H.
  - exists [], []. rewrite Nat.add_0_r. repeat split; auto. constructor.
  - destruct (charset_mem cs x) eqn:Hx.
    + destruct (greedy k cs s (S i)) as [m'|] eqn:Hg.
      * inversion H; subst m'.
        destruct (IH _ Hg) as (w & s' & -> & Hw & Hk).
        exists (x :: w), s'. simpl. repeat split; auto.
        { constructor; auto. }
        { rewrite <- Hk. f_equal. lia. }
      * exists [], (x :: s). rewrite Nat.add_0_r. repeat split; auto. constructor.
    + exists [], (x :: s). rewrite Nat.add_0_r. repeat split; auto. constructor.
Qed.

Lemma greedy_complete k cs w s' i m :
  all_in cs w -> k s' (i + length w)%nat = Some m ->
  exists m', greedy k cs (w ++ s') i = Some m'.
Proof.
  revert i. induction w as [|x w IH]; intros i Hw Hk; simpl in *.
  - rewrite Nat.add_0_r in Hk.
    destruct s' as [|y s']; simpl; eauto.
    destruct (charset_mem cs y); eauto.
    destruct (greedy k cs s' (S i)); eauto.
  - inversion Hw as [|? ? Hx Hw']; subst. rewrite Hx.
    destruct (IH (S i) Hw') as [m' Hm'].
    { rewrite <- Hk. f_equal. lia. }
    rewrite Hm'. eauto.
Qed.

Lemma run_sound r : forall s i g out, run r s i g = Some out -> sem r s i g out.
Proof.
  induction r as [|n r IH]; intros s i g out H; simpl in H.
  - inversion H; reflexivity.
  - destruct n; simpl.
    + destruct (Nat.eqb_spec i 0); [auto | discriminate].
    + destruct s as [|c [|c' s]]; try discriminate; [auto|].
      destruct (N.eqb_spec c LF); [subst; auto | discriminate].
    + destruct s as [|x s]; [discriminate|].
      destruct (N.eqb_spec x c); [subst; eauto | discriminate].
    + destruct s as [|x s]; [discriminate|].
      destruct (charset_mem cs x) eqn:Hx; [eauto 6 | discriminate].
    + apply greedy_sound in H. destruct H as (w & s' & -> & Hw & Hk). eauto 6.
    + destruct s as [|x s]; [discriminate|].
      destruct (charset_mem cs x) eqn:Hx; [|discriminate].
      apply greedy_sound in H. destruct H as (w & s' & -> & Hw & Hk).
      exists (x :: w), s'. split; [reflexivity|]. split; [done|].
      split; [constructor; auto|].
      apply IH. rewrite <- Hk. f_equal. simpl. lia.
    + auto.
    + auto.
Qed.

Lemma run_complete r :
  forall s i g out, sem r s i g out -> exists out', run r s i g = Some out'.
Proof.
  induction r as [|n r IH]; intros s i g out H; simpl in H |- *.
  - eauto.
  - destruct n.
    + destruct H as [-> H]. simpl. eauto.
    + destruct H as [[-> | ->] H]; simpl; eauto.
    + destruct H as (s' & -> & H). rewrite N.eqb_refl. eauto.
    + destruct H as (x & s' & -> & Hx & H). rewrite Hx. eauto.
    + destruct H as (w & s' & -> & Hw & H).
      destruct (IH _ _ _ _ H) as [m Hm].
      eapply greedy_complete; eauto.
    + destruct H as (w & s' & -> & Hne & Hw & H).
      destruct w as [|x w]; [congruence|].
      inversion Hw as [|? ? Hx Hw']; subst. simpl. rewrite Hx.
      destruct (IH _ _ _ _ H) as [m Hm].
      eapply greedy_complete; eauto.
      rewrite <- Hm. f_equal. simpl. lia.
    + eauto.
    + eauto.
Qed.

End ReFacts.

(** ** What [amalgamate_include] accepts *)

Section IncludePattern.
Import Re ReFacts.

Lemma all_in_space w : all_in Space w <-> spaces w.
Proof. reflexivity. Qed.

Lemma all_in_notchar c w : all_in (NotChar c) w <-> c ∉ w.
Proof.
  unfold all_in. rewrite Forall_forall. split.
  - intros H Hin. specialize (H c Hin). simpl in H.
    rewrite N.eqb_refl in H. discriminate.
  - intros H x Hx. simpl. destruct (N.eqb_spec x c); [subst; contradiction | reflexivity].
Qed.

Lemma sem_include line a b :
  sem amalgamate_include line 0 (0%nat, 0%nat) (a, b) ->
  exists ws1 ws2 ws3 group1 t e,
    line = ws1 ++ HASH :: ws2 ++ py "include" ++ ws3
               ++ DQUOTE :: group1 ++ DQUOTE :: t :: e
    /\ spaces ws1 /\ spaces ws2 /\ spaces ws3 /\ ws3 <> []
    /\ group1 <> [] /\ (RPAREN ∉ group1)
    /\ Re.isspace t = true /\ (e = [] \/ e = [LF])
    /\ a = length (ws1 ++ HASH :: ws2 ++ py "include" ++ ws3 ++ [DQUOTE])
    /\ b = (a + length group1)%nat.
Proof.
  cbn [amalgamate_include literal py List.map list_ascii_of_string app sem].
  intros (_ & ws1 & s1 & -> & H1 & s2 & -> & ws2 & s3 & -> & H2 & H).
  destruct H as (s4 & -> & s5 & -> & s6 & -> & s7 & -> & s8 & -> & s9 & ->
                 & s10 & -> & H).
  destruct H as (ws3 & s11 & -> & Hne3 & H3 & s12 & -> & H).
  cbn [fst snd] in H.
  destruct H as (g1 & s13 & -> & Hneg & Hg & s14 & -> & t & e & -> & Ht & He & Hout).
  inversion Hout; subst a b; clear Hout.
  exists ws1, ws2, ws3, g1, t, e.
  apply all_in_notchar in Hg.
  repeat (split; [solve [auto] |]).
  split.
  - repeat (rewrite ?length_app; simpl). lia.
  - repeat (rewrite ?length_app; simpl). lia.
Qed.

Lemma include_sem ws1 ws2 ws3 group1 t e :
  spaces ws1 -> spaces ws2 -> spaces ws3 -> ws3 <> [] ->
  group1 <> [] -> RPAREN ∉ group1 ->
  Re.isspace t = true -> (e = [] \/ e = [LF]) ->
  exists out,
    sem amalgamate_include
      (ws1 ++ HASH :: ws2 ++ py "include" ++ ws3
           ++ DQUOTE :: group1 ++ DQUOTE :: t :: e)
      0 (0%nat, 0%nat) out.
Proof.
  intros H1 H2 H3 Hne3 Hneg Hg Ht He.
  eexists.
  cbn [amalgamate_include literal py List.map list_ascii_of_string app sem].
  split; [reflexivity|].
  exists ws1; eexists; split; [reflexivity|]; split; [exact H1|].
  eexists; split; [reflexivity|].
  exists ws2; eexists; split; [reflexivity|]; split; [exact H2|].
  do 7 (eexists; split; [reflexivity|]).
  exists ws3; eexists; split; [reflexivity|].
  split; [exact Hne3|]. split; [exact H3|].
  eexists; split; [reflexivity|].
  exists group1; eexists; split; [reflexivity|].
  split; [exact Hneg|]. split; [apply all_in_notchar; exact Hg|].
  eexists; split; [reflexivity|].
  exists t, e. split; [reflexivity|]. split; [exact Ht|]. split; [exact He|].
  reflexivity.
Qed.

Lemma spaces_split w c r w' c' r' :
  w ++ c :: r = w' ++ c' :: r' ->
  spaces w -> spaces w' -> Re.isspace c = false -> Re.isspace c' = false ->
  w = w' /\ c = c' /\ r = r'.
Proof.
  revert w'. induction w as [|x w IH]; intros [|x' w'] E Hw Hw' Hc Hc';
    simpl in E; inversion E; subst.
  - auto.
  - inversion Hw'; congruence.
  - inversion Hw; congruence.
  - inversion Hw; inversion Hw'; subst.
    destruct (IH w') as (-> & -> & ->); auto.
Qed.

Lemma closing_unique (g g' : pystr) t t' e e' :
  g ++ DQUOTE :: t :: e = g' ++ DQUOTE :: t' :: e' ->
  Re.isspace t = true -> Re.isspace t' = true ->
  (e = [] \/ e = [LF]) -> (e' = [] \/ e' = [LF]) ->
  g = g'.
Proof.
  intros E Ht Ht' He He'.
  assert (Hq : Re.isspace DQUOTE = false) by reflexivity.
  assert (Hl : Re.isspace LF = true) by reflexivity.
  destruct He as [-> | ->], He' as [-> | ->].
  - change (g ++ [DQUOTE; t]) with (g ++ [DQUOTE] ++ [t]) in E.
    change (g' ++ [DQUOTE; t']) with (g' ++ [DQUOTE] ++ [t']) in E.
    rewrite !app_assoc in E.
    apply app_inj_tail in E as [E _]. apply app_inj_tail in E as [E _]. exact E.
  - change (g ++ [DQUOTE; t]) with (g ++ [DQUOTE] ++ [t]) in E.
    change (g' ++ [DQUOTE; t'; LF]) with (g' ++ [DQUOTE] ++ [t'] ++ [LF]) in E.
    rewrite !app_assoc in E.
    apply app_inj_tail in E as [E _]. apply app_inj_tail in E as [_ E].
    congruence.
  - change (g ++ [DQUOTE; t; LF]) with (g ++ [DQUOTE] ++ [t] ++ [LF]) in E.
    change (g' ++ [DQUOTE; t']) with (g' ++ [DQUOTE] ++ [t']) in E.
    rewrite !app_assoc in E.
    apply app_inj_tail in E as [E _]. apply app_inj_tail in E as [_ E].
    congruence.
  - change (g ++ [DQUOTE; t; LF]) with (g ++ [DQUOTE] ++ [t] ++ [LF]) in E.
    change (g' ++ [DQUOTE; t'; LF]) with (g' ++ [DQUOTE] ++ [t'] ++ [LF]) in E.
    rewrite !app_assoc in E.
    apply app_inj_tail in E as [E _]. apply app_inj_tail in E as [E _].
    apply app_inj_tail in E as [E _]. exact E.
Qed.

Lemma include_shape_unique line g g' :
  include_shape line g -> include_shape line g' -> g = g'.
Proof.
  intros (ws1 & ws2 & ws3 & t & e & -> & H1 & H2 & H3 & _ & _ & _ & Ht & He).
  intros (ws1' & ws2' & ws3' & t' & e' & E & H1' & H2' & H3' & _ & _ & _ & Ht' & He').
  apply spaces_split in E as (_ & _ & E); auto.
  cbn [py List.map list_ascii_of_string app] in E.
  apply spaces_split in E as (_ & _ & E); auto.
  do 6 (apply (f_equal (@tl N)) in E; cbn [tl] in E).
  apply spaces_split in E as (_ & _ & E); auto.
  eapply closing_unique; eauto.
Qed.

Lemma include_match_shape line group1 :
  include_match line = Some group1 <-> include_shape line group1.
Proof.
  assert (Hfwd : forall g, include_match line = Some g -> include_shape line g).
  { intros g. unfold include_match, match_group1.
    destruct (run amalgamate_include line 0 (0%nat, 0%nat)) as [[a b]|] eqn:Hr;
      [|discriminate].
    intros Hg. inversion Hg; subst g; clear Hg.
    apply run_sound, sem_include in Hr.
    destruct Hr as (ws1 & ws2 & ws3 & g1 & t & e & -> & H1 & H2 & H3 & Hne3
                    & Hneg & Hg & Ht & He & -> & ->).
    match goal with |- include_shape _ ?x => assert (Hx : x = g1) end.
    { replace (ws1 ++ HASH :: ws2 ++ py "include" ++ ws3 ++ DQUOTE :: g1 ++ DQUOTE :: t :: e)
        with ((ws1 ++ HASH :: ws2 ++ py "include" ++ ws3 ++ [DQUOTE])
                ++ g1 ++ DQUOTE :: t :: e)
        by (repeat (rewrite <- ?app_assoc; simpl); reflexivity).
      rewrite drop_app_length.
      replace (_ + length g1 - _)%nat with (length g1) by lia.
      apply take_app_length. }
    rewrite Hx.
    exists ws1, ws2, ws3, t, e. auto 10. }
  split; [apply Hfwd|].
  intros Hs.
  destruct Hs as (ws1 & ws2 & ws3 & t & e & -> & H1 & H2 & H3 & Hne3
                  & Hneg & Hg & Ht & He).
  destruct (include_sem ws1 ws2 ws3 group1 t e) as [out Hsem]; auto.
  apply run_complete in Hsem as [[a b] Hrun].
  assert (Hm : exists g, include_match
     (ws1 ++ HASH :: ws2 ++ py "include" ++ ws3 ++ DQUOTE :: group1 ++ DQUOTE :: t :: e)
     = Some g).
  { unfold include_match, match_group1. rewrite Hrun. eauto. }
  destruct Hm as [g Hm]. rewrite Hm. f_equal.
  eapply include_shape_unique; [apply Hfwd; exact Hm|].
  exists ws1, ws2, ws3, t, e. auto 10.
Qed.

End IncludePattern.

(** ** Loops and outcomes *)

Lemma for_each_nil {A S} (body : A -> S -> outcome S) st :
  for_each body [] st = Done st.
Proof. reflexivity. Qed.

Lemma for_each_cons_done {A S} (body : A -> S -> outcome S) x xs st st' :
  body x st = Done st' ->
  for_each body (x :: xs) st = for_each body xs st'.
Proof. intros H. simpl. rewrite H. reflexivity. Qed.

Lemma for_each_app_done {A S} (body : A -> S -> outcome S) xs ys st st' :
  for_each body xs st = Done st' ->
  for_each body (xs ++ ys) st = for_each body ys st'.
Proof.
  revert st. induction xs as [|x xs IH]; intros st H; simpl in *.
  - inversion H; reflexivity.
  - destruct (body x st); try discriminate. auto.
Qed.

(** A relation that every iteration respects is respected by the loop. *)
Lemma for_each_rel {A S} (R : S -> S -> Prop) `{!PreOrder R}
    (body : A -> S -> outcome S) xs :
  (forall x s s', x ∈ xs -> final (body x s) = Some s' -> R s s') ->
  forall st st', final (for_each body xs st) = Some st' -> R st st'.
Proof.
  induction xs as [|x xs IH]; intros Hb st st' H; simpl in H.
  - inversion H; subst. reflexivity.
  - destruct (body x st) as [s1|e s1|] eqn:Hx.
    + transitivity s1.
      * apply (Hb x); [left | rewrite Hx; reflexivity].
      * apply IH; [|exact H]. intros y s s' Hy. apply Hb. right; exact Hy.
    + inversion H; subst. apply (Hb x); [left | rewrite Hx; reflexivity].
    + discriminate.
Qed.

(** ** The state only grows *)

#[global] Instance extends_preorder : PreOrder extends.
Proof.
  split.
  - intros st. repeat split; reflexivity.
  - intros a b c (H1 & H2 & H3) (H1' & H2' & H3').
    repeat split; etransitivity; eauto.
Qed.

Lemma extends_write text st : extends st (write text st).
Proof. repeat split; simpl; try reflexivity. apply prefix_app_r. reflexivity. Qed.

Lemma extends_print text st : extends st (print text st).
Proof. repeat split; simpl; try reflexivity. apply prefix_app_r. reflexivity. Qed.

Lemma extends_append_included p st : extends st (append_included p st).
Proof. repeat split; simpl; try reflexivity. apply prefix_app_r. reflexivity. Qed.

Section AmalgamateFacts.

Variable os : OS.
Variable src_root : path.
Variable git_id : pystr.

Local Notation "'amalg'" := (amalgamate os src_root git_id).
Local Notation "'bnrs'" := (banners git_id).
Local Notation "'body'" := (loop_body os).

Lemma extends_banners st : extends st (bnrs st).
Proof. unfold banners. etransitivity; apply extends_write. Qed.

Lemma stream_banners st :
  stream (bnrs st) = stream st ++ banner_notice ++ banner_version git_id.
Proof. simpl. rewrite <- app_assoc. reflexivity. Qed.

(** The call on a path that is already recorded: lines 48-51. *)
Lemma amalgamate_seen fuel filename st :
  realpath os filename ∈ already_included st ->
  amalg (S fuel) filename st = Done (bnrs st).
Proof.
  intros Hin. simpl.
  destruct (decide _) as [_|Hn]; [reflexivity | contradiction].
Qed.

(** [FileNotFoundError] never leaves [amalgamate]: line 70 catches it. *)
Lemma amalgamate_never_not_found fuel filename st st' :
  amalg fuel filename st <> Raised FileNotFoundError st'.
Proof.
  destruct fuel as [|fuel]; simpl; [discriminate|].
  destruct (decide _); [discriminate|].
  match goal with |- try_except_FileNotFoundError ?b ?h <> _ =>
    destruct b as [s|[] s|]; simpl; discriminate end.
Qed.

Lemma loop_never_not_found fuel srcdir input_file st st' :
  for_each (body (amalg fuel) srcdir) input_file st
  <> Raised FileNotFoundError st'.
Proof.
  revert st. induction input_file as [|l ls IH]; intros st; simpl; [discriminate|].
  destruct (body (amalg fuel) srcdir l st) as [s|e s|] eqn:Hb;
    [apply IH | | discriminate].
  intros E. inversion E; subst.
  unfold loop_body in Hb.
  destruct (include_match l); [|discriminate].
  destruct (path_exists os _); [|discriminate].
  eapply amalgamate_never_not_found; eauto.
Qed.

(** The call on a path that is not recorded yet and opens: lines 52-69. *)
Lemma amalgamate_fresh_open fuel filename st input_file :
  realpath os filename ∉ already_included st ->
  open_read os filename = inr input_file ->
  amalg (S fuel) filename st =
  let full_path := realpath os filename in
  let rel_path_str := rel_path_of os src_root full_path in
  match
    for_each (body (amalg fuel) (dirname os full_path)) input_file
      (write (begin_marker rel_path_str)
         (append_included full_path (bnrs st)))
  with
  | Done st' => Done (write (end_marker rel_path_str) st')
  | r => r
  end.
Proof.
  intros Hn Ho. simpl.
  destruct (decide _) as [Hin|_]; [contradiction|].
  rewrite Ho.
  destruct (for_each _ _ _) as [s|[] s|] eqn:Hl; try reflexivity.
  exfalso. eapply loop_never_not_found; eauto.
Qed.

(** The call on a path that is not recorded yet and is not found by
    [open]: lines 52-54 and 70-72. *)
Lemma amalgamate_fresh_not_found fuel filename st :
  realpath os filename ∉ already_included st ->
  open_read os filename = inl FileNotFoundError ->
  amalg (S fuel) filename st =
  Done (write (error_line filename)
          (print (warning_line filename)
             (append_included (realpath os filename) (bnrs st)))).
Proof.
  intros Hn Ho. simpl.
  destruct (decide _) as [Hin|_]; [contradiction|].
  rewrite Ho. reflexivity.
Qed.

Lemma amalgamate_fresh_error fuel filename st :
  realpath os filename ∉ already_included st ->
  open_read os filename = inl OtherError ->
  amalg (S fuel) filename st =
  Raised OtherError (append_included (realpath os filename) (bnrs st)).
Proof.
  intros Hn Ho. simpl.
  destruct (decide _) as [Hin|_]; [contradiction|].
  rewrite Ho. reflexivity.
Qed.

(** Whatever a call does, its final state extends the state after the
    two banner lines and has the path on record. *)
Lemma body_extends (recurse : path -> state -> result) srcdir l st st' :
  (forall p s s', final (recurse p s) = Some s' -> extends s s') ->
  final (body recurse srcdir l st) = Some st' -> extends st st'.
Proof.
  intros Hr. unfold loop_body.
  destruct (include_match l).
  - destruct (path_exists os _); [apply Hr|].
    simpl. intros E; inversion E. apply extends_write.
  - simpl. intros E; inversion E. apply extends_write.
Qed.

Lemma amalgamate_extends_fresh fuel : forall filename st st',
  final (amalg fuel filename st) = Some st' ->
  extends (bnrs st) st'
  /\ realpath os filename ∈ already_included st'
  /\ (realpath os filename ∉ already_included st ->
      extends (append_included (realpath os filename) (bnrs st)) st').
Proof.
  induction fuel as [|fuel IH]; intros filename st st' H; [discriminate|].
  destruct (decide (realpath os filename ∈ already_included st)) as [Hin|Hn].
  - rewrite amalgamate_seen in H by exact Hin. inversion H; subst.
    split; [reflexivity|]. split; [exact Hin | contradiction].
  - set (st1 := append_included (realpath os filename) (bnrs st)).
    assert (H1 : extends (bnrs st) st1) by apply extends_append_included.
    assert (Hin1 : realpath os filename ∈ already_included st1).
    { simpl. apply elem_of_app. right. left. }
    assert (Hkeep : forall s, extends st1 s ->
              extends (bnrs st) s
              /\ realpath os filename ∈ already_included s
              /\ (realpath os filename ∉ already_included st -> extends st1 s)).
    { intros s Hs. split; [etransitivity; eauto|]. split; [|auto].
      destruct Hs as (_ & [k Hk] & _). rewrite Hk. apply elem_of_app. left. exact Hin1. }
    destruct (open_read os filename) as [[]|input_file] eqn:Ho.
    + rewrite amalgamate_fresh_not_found in H by assumption.
      inversion H; subst. apply Hkeep.
      etransitivity; [apply extends_print | apply extends_write].
    + rewrite amalgamate_fresh_error in H by assumption.
      inversion H; subst. apply Hkeep. reflexivity.
    + rewrite (amalgamate_fresh_open _ _ _ input_file) in H by assumption.
      cbv zeta in H. fold st1 in H.
      set (st2 := write _ st1) in H.
      assert (H2 : extends st1 st2) by apply extends_write.
      assert (Hloop : forall s',
        final (for_each (body (amalg fuel) (dirname os (realpath os filename)))
                 input_file st2) = Some s' -> extends st2 s').
      { apply (for_each_rel extends). intros l s s' _.
        apply body_extends. intros p s0 s0' Hp.
        etransitivity; [apply extends_banners | apply (IH _ _ _ Hp)]. }
      destruct (for_each _ _ _) as [s|e s|] eqn:Hl; [| |discriminate].
      * inversion H; subst. apply Hkeep.
        etransitivity; [exact H2|]. etransitivity; [apply Hloop; reflexivity|].
        apply extends_write.
      * inversion H; subst. apply Hkeep.
        etransitivity; [exact H2|]. apply Hloop; reflexivity.
Qed.

Lemma amalgamate_extends fuel filename st st' :
  final (amalg fuel filename st) = Some st' ->
  extends (bnrs st) st' /\ realpath os filename ∈ already_included st'.
Proof.
  intros H. apply amalgamate_extends_fresh in H as (H1 & H2 & _). auto.
Qed.

(** The first call on a file that opens writes the banner, the begin
    marker, what the loop over the lines writes, and the end marker. *)
Lemma amalgamate_fresh_open_stream fuel filename st st' input_file :
  realpath os filename ∉ already_included st ->
  open_read os filename = inr input_file ->
  amalg (S fuel) filename st = Done st' ->
  exists written,
    stream st' =
    stream st ++ banner_notice ++ banner_version git_id
    ++ begin_marker (rel_path_of os src_root (realpath os filename))
    ++ written
    ++ end_marker (rel_path_of os src_root (realpath os filename)).
Proof.
  intros Hn Ho H.
  rewrite (amalgamate_fresh_open _ _ _ input_file) in H by assumption.
  cbv zeta in H.
  destruct (for_each _ _ _) as [s| |] eqn:Hl; try discriminate.
  inversion H; subst st'; clear H.
  assert (He : extends
                 (write (begin_marker (rel_path_of os src_root (realpath os filename)))
                    (append_included (realpath os filename) (bnrs st))) s).
  { eapply (for_each_rel extends); [|rewrite Hl; reflexivity].
    intros l s1 s2 _. apply body_extends. intros p s0 s0' Hp.
    etransitivity; [apply extends_banners | eapply amalgamate_extends, Hp]. }
  destruct He as ([written Hw] & _). exists written.
  cbn [stream write]. rewrite Hw.
  unfold banners, write, append_included. cbn [stream].
  rewrite <- !app_assoc. reflexivity.
Qed.

End AmalgamateFacts.

(** ** Fuel and termination *)

Lemma for_each_agree {A S} (b1 b2 : A -> S -> outcome S) xs :
  (forall x s, b1 x s <> OutOfFuel -> b2 x s = b1 x s) ->
  forall st, for_each b1 xs st <> OutOfFuel ->
             for_each b2 xs st = for_each b1 xs st.
Proof.
  intros Hb. induction xs as [|x xs IH]; intros st H; simpl in *; [reflexivity|].
  destruct (b1 x st) as [s|e s|] eqn:H1.
  - rewrite Hb, H1 by (rewrite H1; discriminate). apply IH, H.
  - rewrite Hb, H1 by (rewrite H1; discriminate). reflexivity.
  - congruence.
Qed.

Lemma unseen_mono U al al' : al ⊆ al' -> (unseen U al' <= unseen U al)%nat.
Proof.
  intros Hsub. unfold unseen. induction U as [|u U IH]; simpl; [lia|].
  rewrite !filter_cons.
  destruct (decide (u ∉ al')) as [Hn'|Hn'], (decide (u ∉ al)) as [Hn|Hn];
    simpl; try lia.
  exfalso. apply Hn. intros Hin. apply Hn'. apply Hsub, Hin.
Qed.

Lemma unseen_record U al x :
  x ∈ U -> x ∉ al -> (unseen U (al ++ [x]) < unseen U al)%nat.
Proof.
  intros Hin Hn. unfold unseen. induction U as [|u U IH]; [inversion Hin|].
  assert (Hle : (unseen U (al ++ [x]) <= unseen U al)%nat).
  { apply unseen_mono. intros y Hy. apply elem_of_app. left; exact Hy. }
  unfold unseen in Hle. rewrite !filter_cons.
  destruct (decide (u = x)) as [->|Hne].
  - destruct (decide (x ∉ al ++ [x])) as [Hx|_].
    + exfalso. apply Hx, elem_of_app. right. left.
    + destruct (decide (x ∉ al)); [simpl; lia | contradiction].
  - apply elem_of_cons in Hin as [->|Hin]; [congruence|].
    specialize (IH Hin).
    destruct (decide (u ∉ al ++ [x])) as [H1|H1], (decide (u ∉ al)) as [H2|H2];
      simpl; try lia.
    exfalso. apply H2. intros Hu. apply H1, elem_of_app. left; exact Hu.
Qed.

Section Termination.

Variable os : OS.
Variable src_root : path.
Variable git_id : pystr.

Local Notation "'amalg'" := (amalgamate os src_root git_id).
Local Notation "'bnrs'" := (banners git_id).
Local Notation "'body'" := (loop_body os).

Lemma amalgamate_fuel_mono fuel : forall fuel' filename st,
  (fuel <= fuel')%nat ->
  amalg fuel filename st <> OutOfFuel ->
  amalg fuel' filename st = amalg fuel filename st.
Proof.
  induction fuel as [|fuel IH]; intros fuel' filename st Hle H; [contradiction|].
  destruct fuel' as [|fuel']; [lia|].
  assert (Hle' : (fuel <= fuel')%nat) by lia.
  simpl in H |- *.
  destruct (decide _) as [|Hn]; [reflexivity|].
  destruct (open_read os filename) as [e|input_file]; [reflexivity|].
  match type of H with context [for_each ?b ?xs ?s] =>
    assert (Hl : for_each b xs s <> OutOfFuel)
      by (intros E; rewrite E in H; apply H; reflexivity) end.
  rewrite (for_each_agree
             (body (amalg fuel) (dirname os (realpath os filename)))
             (body (amalg fuel') (dirname os (realpath os filename))));
    [reflexivity | | exact Hl].
  intros l s. unfold loop_body.
  destruct (include_match l); [|reflexivity].
  destruct (path_exists os _); [|reflexivity].
  intros Hne. apply IH; assumption.
Qed.

(** Every file that opens lies in a finite universe of canonical paths. *)
Variable universe : list path.
Hypothesis universe_spec :
  forall p input_file, open_read os p = inr input_file -> realpath os p ∈ universe.

Lemma amalgamate_enough_fuel fuel : forall filename st,
  (unseen universe (already_included st) < fuel)%nat ->
  amalg fuel filename st <> OutOfFuel.
Proof.
  induction fuel as [|fuel IH]; intros filename st Hlt; [lia|].
  destruct (decide (realpath os filename ∈ already_included st)) as [Hin|Hn].
  { rewrite amalgamate_seen by exact Hin. discriminate. }
  destruct (open_read os filename) as [[]|input_file] eqn:Ho.
  { rewrite amalgamate_fresh_not_found by assumption. discriminate. }
  { rewrite amalgamate_fresh_error by assumption. discriminate. }
  rewrite (amalgamate_fresh_open _ _ _ _ _ _ input_file) by assumption.
  cbv zeta.
  set (st2 := write _ _).
  assert (H2 : (unseen universe (already_included st2) < fuel)%nat).
  { simpl. pose proof (unseen_record universe (already_included st)
                         (realpath os filename) (universe_spec _ _ Ho) Hn). lia. }
  assert (Hloop : forall xs s,
    (unseen universe (already_included s) < fuel)%nat ->
    for_each (body (amalg fuel) (dirname os (realpath os filename))) xs s
    <> OutOfFuel).
  { induction xs as [|l xs IHxs]; intros s Hs; simpl; [discriminate|].
    destruct (body (amalg fuel) _ l s) as [s'|e s'|] eqn:Hb; [| discriminate |].
    - apply IHxs.
      assert (He : extends s s').
      { eapply (body_extends os (amalg fuel)); [|rewrite Hb; reflexivity].
        intros p s0 s0' Hp. etransitivity; [apply extends_banners|].
        eapply amalgamate_extends, Hp. }
      destruct He as (_ & [k Hk] & _).
      eapply Nat.le_lt_trans; [|exact Hs].
      apply unseen_mono. rewrite Hk. intros y Hy. apply elem_of_app; left; exact Hy.
    - unfold loop_body in Hb.
      destruct (include_match l); [|discriminate].
      destruct (path_exists os _); [|discriminate].
      exfalso. eapply IH; eauto. }
  specialize (Hloop input_file st2 H2).
  destruct (for_each _ _ _); congruence.
Qed.

End Termination.

(** ** Banners, the record and the lines of a file *)

Lemma banners_is_banners_only git_id st : banners git_id st = banners_only git_id st.
Proof. unfold banners, banners_only, write; simpl. rewrite <- app_assoc. reflexivity. Qed.

(** C1. Every call of [amalgamate] first writes the notice and the
    version line; a call on a path whose canonical form is on record
    writes nothing else and leaves the record alone; and once a call on
    a file has finished, every later call of the run on a name of the
    same canonical path is of that kind, so the file is expanded at its
    first occurrence only.  The first call on a file that opens writes
    the begin marker, the body and the end marker after the banner. *)
Theorem amalgamate_duplicate_suppression
    (os : OS) (src_root : path) (git_id : pystr)
    (fuel : nat) (filename : path) (st : state) :
  let r := amalgamate os src_root git_id (S fuel) filename st in
  (forall st', final r = Some st' ->
     exists rest,
       stream st' = stream st ++ banner_notice ++ banner_version git_id ++ rest)
  /\ (realpath os filename ∈ already_included st ->
      r = Done (banners_only git_id st))
  /\ (forall st', final r = Some st' ->
      forall fuel' again later,
        realpath os again = realpath os filename ->
        already_included st' ⊆ already_included later ->
        amalgamate os src_root git_id (S fuel') again later
        = Done (banners_only git_id later))
  /\ (forall input_file st',
        realpath os filename ∉ already_included st ->
        open_read os filename = inr input_file ->
        r = Done st' ->
        exists written,
          stream st' =
          stream st ++ banner_notice ++ banner_version git_id
          ++ begin_marker (rel_path_of os src_root (realpath os filename))
          ++ written
          ++ end_marker (rel_path_of os src_root (realpath os filename))).
Proof.
  intros r. subst r. split; [|split; [|split]];
    [| | |intros input_file st' Hn Ho H;
          eapply amalgamate_fresh_open_stream; eassumption].
  - intros st' H. apply amalgamate_extends in H as [(Hs & _) _].
    destruct Hs as [k Hk]. exists k. rewrite Hk, stream_banners.
    rewrite <- !app_assoc. reflexivity.
  - intros Hin. rewrite amalgamate_seen by exact Hin.
    rewrite banners_is_banners_only. reflexivity.
  - intros st' H fuel' again later Hsame Hsub.
    apply amalgamate_extends in H as [_ Hin].
    rewrite amalgamate_seen, banners_is_banners_only; [reflexivity|].
    rewrite Hsame. apply Hsub, Hin.
Qed.

Lemma amalgamate_duplicate_suppression_witness :
  amalgamate Demo.os Demo.cwd Demo.git_id 1 (py "simde/x86/../x86/mmx.h")
    Demo.after_sse2
  = Done (banners_only Demo.git_id Demo.after_sse2).
Proof.
  refine (proj1 (proj2 (proj2 (amalgamate_duplicate_suppression
            Demo.os Demo.cwd Demo.git_id 7 Demo.mmx
            (write (py "/* sse2 */" ++ [LF])
               (write (begin_marker (py "simde/x86/sse2.h"))
                  (append_included Demo.sse2
                     (banners Demo.git_id Demo.start)))))))
          _ _ 0%nat (py "simde/x86/../x86/mmx.h") Demo.after_sse2 _ _).
  - vm_compute. reflexivity.
  - vm_compute. reflexivity.
  - unfold Demo.after_sse2. cbn [already_included].
    intros x Hx. rewrite !elem_of_cons in Hx. rewrite !elem_of_cons.
    tauto.
Defined.



(** A file none of whose lines is an include line is copied whole
    between its markers. *)
Lemma plain_lines_copied
    (os : OS) (recurse : path -> state -> result) (srcdir : path)
    (input_file : list pystr) :
  Forall (fun l => include_match l = None) input_file ->
  forall st,
    for_each (loop_body os recurse srcdir) input_file st
    = Done (write (List.concat input_file) st).
Proof.
  induction 1 as [|l ls Hl _ IH]; intros st; simpl.
  - unfold write. rewrite app_nil_r. destruct st; reflexivity.
  - unfold loop_body at 1. rewrite Hl. rewrite IH.
    unfold write; simpl. rewrite <- app_assoc. reflexivity.
Qed.

Lemma plain_file_copied
    (os : OS) (src_root : path) (git_id : pystr) (fuel : nat)
    (filename : path) (input_file : list pystr) (st : state) :
  realpath os filename ∉ already_included st ->
  open_read os filename = inr input_file ->
  Forall (fun l => include_match l = None) input_file ->
  let rel_path_str := rel_path_of os src_root (realpath os filename) in
  amalgamate os src_root git_id (S fuel) filename st
  = Done {| stream := stream st ++ banner_notice ++ banner_version git_id
                      ++ begin_marker rel_path_str
                      ++ List.concat input_file
                      ++ end_marker rel_path_str;
            already_included := already_included st ++ [realpath os filename];
            console := console st |}.
Proof.
  intros Hfresh Hopen Hplain. cbv zeta.
  rewrite (amalgamate_fresh_open _ _ _ _ _ _ input_file) by assumption.
  cbv zeta. rewrite plain_lines_copied by exact Hplain.
  unfold banners, write, append_included.
  cbn [stream already_included console].
  rewrite <- !app_assoc. reflexivity.
Qed.



(** The state a call ends in when [open] does not find the file. *)
Lemma amalgamate_not_found_state
    (os : OS) (src_root : path) (git_id : pystr) (fuel : nat)
    (filename : path) (st : state) :
  realpath os filename ∉ already_included st ->
  open_read os filename = inl FileNotFoundError ->
  amalgamate os src_root git_id (S fuel) filename st
  = Done {| stream := stream st ++ banner_notice ++ banner_version git_id
                      ++ error_line filename;
            already_included := already_included st ++ [realpath os filename];
            console := console st ++ [warning_line filename] |}.
Proof.
  intros Hfresh Hgone.
  rewrite amalgamate_fresh_not_found by assumption.
  unfold banners, write, print, append_included.
  cbn [stream already_included console].
  rewrite <- !app_assoc. reflexivity.
Qed.

(** C6. When [open] does not find the file, the call writes the two
    banner lines and one diagnostic line, prints the warning, and
    returns; a loop that reached the file through an include line goes
    on with the next line. *)
Theorem open_failure_diagnostic
    (os : OS) (src_root : path) (git_id : pystr) (fuel : nat)
    (filename : path) (st : state)
    (Hfresh : realpath os filename ∉ already_included st)
    (Hgone : open_read os filename = inl FileNotFoundError) :
  let st' :=
    {| stream := stream st ++ banner_notice ++ banner_version git_id
                 ++ error_line filename;
       already_included := already_included st ++ [realpath os filename];
       console := console st ++ [warning_line filename] |} in
  amalgamate os src_root git_id (S fuel) filename st = Done st'
  /\ forall srcdir source_line group1 rest,
       include_match source_line = Some group1 ->
       join os srcdir group1 = filename ->
       path_exists os filename = true ->
       for_each (loop_body os (amalgamate os src_root git_id (S fuel)) srcdir)
         (source_line :: rest) st
       = for_each (loop_body os (amalgamate os src_root git_id (S fuel)) srcdir)
           rest st'.
Proof.
  cbv zeta.
  pose proof (amalgamate_not_found_state os src_root git_id fuel filename st
                Hfresh Hgone) as H.
  split; [exact H|].
  intros srcdir source_line group1 rest Hm Hj He.
  apply for_each_cons_done. unfold loop_body. rewrite Hm, Hj, He. exact H.
Qed.

Lemma open_failure_diagnostic_witness :
  for_each (loop_body Demo.os (amalgamate Demo.os Demo.cwd Demo.git_id 1)
              (py "/repo/simde/x86"))
    [Demo.inc "gone.h"; py "int x;" ++ [LF]] Demo.start
  = Done {| stream :=
              banner_notice ++ banner_version Demo.git_id
              ++ error_line (py "/repo/simde/x86/gone.h")
              ++ py "int x;" ++ [LF];
            already_included := [Demo.gone];
            console := [warning_line (py "/repo/simde/x86/gone.h")] |}.
Proof.
  pose proof (open_failure_diagnostic Demo.os Demo.cwd Demo.git_id 0
                (py "/repo/simde/x86/gone.h") Demo.start) as H.
  cbv zeta in H.
  destruct H as [_ H].
  - vm_compute. intros Hin. inversion Hin.
  - reflexivity.
  - rewrite (H (py "/repo/simde/x86") (Demo.inc "gone.h") (py "gone.h")
               [py "int x;" ++ [LF]] eq_refl eq_refl eq_refl).
    vm_compute. reflexivity.
Defined.

(** ** The handler of line 70 runs once per canonical path

    Each run of the handler prints one warning and writes one
    diagnostic line, so the warnings on the console count its runs. *)

Section Warned.

Variable os : OS.
Variable src_root : path.
Variable git_id : pystr.

Local Notation "'amalg'" := (amalgamate os src_root git_id).
Local Notation "'bnrs'" := (banners git_id).
Local Notation "'body'" := (loop_body os).

Lemma warned_silent st st' :
  extends st st' -> console st' = console st -> warned os st st'.
Proof.
  intros He Hc. split; [exact He|]. exists []. simpl.
  rewrite app_nil_r. split; [exact Hc|]. split; [constructor|].
  intros g Hg. inversion Hg.
Qed.

#[global] Instance warned_preorder : PreOrder (warned os).
Proof.
  split.
  - intros st. apply warned_silent; reflexivity.
  - intros a b c [Hab (fs1 & Hc1 & Hd1 & H1)] [Hbc (fs2 & Hc2 & Hd2 & H2)].
    split; [etransitivity; eauto|].
    exists (fs1 ++ fs2). split; [|split].
    + rewrite Hc2, Hc1, List.map_app, <- app_assoc. reflexivity.
    + rewrite List.map_app. apply NoDup_app. split; [exact Hd1|]. split; [|exact Hd2].
      intros x Hx1 Hx2.
      apply list_elem_of_In, in_map_iff in Hx1 as (g1 & <- & Hg1).
      apply list_elem_of_In, in_map_iff in Hx2 as (g2 & E & Hg2).
      apply list_elem_of_In in Hg1, Hg2.
      destruct (H1 _ Hg1) as (_ & Hin & _).
      destruct (H2 _ Hg2) as (Hnot & _ & _).
      apply Hnot. rewrite E. exact Hin.
    + intros g Hg. apply elem_of_app in Hg as [Hg|Hg].
      * destruct (H1 _ Hg) as (Hn & Hin & Ho). repeat split; auto.
        destruct Hbc as (_ & [k Hk] & _). rewrite Hk. apply elem_of_app; left; exact Hin.
      * destruct (H2 _ Hg) as (Hn & Hin & Ho). repeat split; auto.
        intros Hin'. apply Hn.
        destruct Hab as (_ & [k Hk] & _). rewrite Hk. apply elem_of_app; left; exact Hin'.
Qed.


End Warned.



Lemma posix_lookup_key (t : Posix.table) p r :
  Posix.lookup t p = Some r -> p ∈ List.map fst t.
Proof.
  induction t as [|[k v] t IH]; simpl; [discriminate|].
  destruct (decide (k = p)) as [->|_]; [left | right; auto].
Qed.

Lemma posix_universe cwd (t : Posix.table) p input_file :
  open_read (Posix.os cwd t) p = inr input_file ->
  realpath (Posix.os cwd t) p ∈ List.map fst t.
Proof.
  simpl. destruct (Posix.lookup t (Posix.abspath cwd p)) eqn:Hl; [|discriminate].
  intros _. eapply posix_lookup_key; eauto.
Qed.

(** C9. When the files that open have their canonical paths in a
    finite list, [amalgamate] terminates, include cycles or not: with
    one unit of fuel more than there are listed paths not yet on record
    the call returns or raises, and more fuel does not change the
    result.  Each call either finds the canonical path on record and
    returns right after the two banner lines, or puts a path on record
    that was not there. *)
Theorem amalgamate_terminates
    (os : OS) (src_root : path) (git_id : pystr) (universe : list path)
    (Hfinite : forall p input_file,
        open_read os p = inr input_file -> realpath os p ∈ universe)
    (filename : path) (st : state) :
  (exists fuel,
     amalgamate os src_root git_id fuel filename st <> OutOfFuel
     /\ forall fuel', (fuel <= fuel')%nat ->
          amalgamate os src_root git_id fuel' filename st
          = amalgamate os src_root git_id fuel filename st)
  /\ (forall fuel,
        (realpath os filename ∈ already_included st
         /\ amalgamate os src_root git_id (S fuel) filename st
            = Done (banners_only git_id st))
        \/ ((realpath os filename ∉ already_included st)
            /\ forall st',
                 final (amalgamate os src_root git_id (S fuel) filename st)
                 = Some st' ->
                 (already_included st ++ [realpath os filename])
                   `prefix_of` already_included st')).
Proof.
  split.
  - exists (S (unseen universe (already_included st))).
    assert (H : amalgamate os src_root git_id
                  (S (unseen universe (already_included st))) filename st
                <> OutOfFuel).
    { apply (amalgamate_enough_fuel os src_root git_id universe Hfinite). lia. }
    split; [exact H|].
    intros fuel' Hle. apply amalgamate_fuel_mono; assumption.
  - intros fuel.
    destruct (decide (realpath os filename ∈ already_included st)) as [Hin|Hn].
    + left. split; [exact Hin|].
      rewrite amalgamate_seen, banners_is_banners_only by exact Hin. reflexivity.
    + right. split; [exact Hn|]. intros st' H.
      apply amalgamate_extends_fresh in H as (_ & _ & H).
      destruct (H Hn) as (_ & Hrec & _). exact Hrec.
Qed.

Lemma amalgamate_terminates_witness :
  exists fuel,
    amalgamate Demo.os Demo.cwd Demo.git_id fuel Demo.sse2 Demo.start
    <> OutOfFuel.
Proof.
  destruct (amalgamate_terminates Demo.os Demo.cwd Demo.git_id Demo.universe
              (posix_universe Demo.cwd Demo.files) Demo.sse2 Demo.start)
    as [(fuel & H & _) _].
  exists fuel. exact H.
Defined.

(** ** The include pattern and the specification's wording *)

(** C4, as the specification words it, fails: an include line with two
    blanks before its newline has the shape the specification
    describes, and the pattern does not match it. *)
Lemma include_pattern_spec_counterexample :
  let line := py "#include " ++ q "a.h" ++ py "  " ++ [LF] in
  ~ (include_match line <> None <-> spec_include_line line).
Proof.
  cbv zeta. intros [_ H].
  assert (Hs : spec_include_line (py "#include " ++ q "a.h" ++ py "  " ++ [LF])).
  { exists [], (py " "), (py "a.h"), (py "  " ++ [LF]).
    split; [reflexivity|]. split; [constructor|].
    split; [repeat constructor|]. split; [repeat constructor|].
    by_decide. }
  apply H in Hs. apply Hs. reflexivity.
Qed.

(** C4, amended. The pattern matches a line exactly when the line is:
    whitespace, [#], whitespace, [include], at least one whitespace
    character, a double quote, a non-empty captured text without [)],
    a double quote, exactly one whitespace character, and then the end
    of the line or one final newline.  The captured text is the group.
    Any other line is written as a plain line. *)
Theorem include_pattern_exact
    (os : OS) (recurse : path -> state -> result) (srcdir : path)
    (line : pystr) :
  (forall group1, include_match line = Some group1 <-> include_shape line group1)
  /\ ((~ exists group1, include_shape line group1) ->
      forall st, loop_body os recurse srcdir line st = Done (write line st)).
Proof.
  split; [intros g; apply include_match_shape|].
  intros Hno st. unfold loop_body.
  destruct (include_match line) as [g|] eqn:Hm; [|reflexivity].
  exfalso. apply Hno. exists g. apply include_match_shape, Hm.
Qed.

Lemma include_pattern_exact_witness :
  loop_body Demo.os (amalgamate Demo.os Demo.cwd Demo.git_id 3)
    (py "/repo/simde/x86") (py "#include " ++ q "a.h" ++ py "  " ++ [LF])
    Demo.start
  = Done (write (py "#include " ++ q "a.h" ++ py "  " ++ [LF]) Demo.start).
Proof.
  refine (proj2 (include_pattern_exact Demo.os _ _ _) _ _).
  intros [g Hg].
  apply (proj1 (include_pattern_exact Demo.os (fun _ st => Done st) [] _)) in Hg.
  vm_compute in Hg. discriminate Hg.
Defined.

(** ** Quotes and parentheses in the captured text *)

Lemma first_quote (A R pre R' : pystr) :
  DQUOTE ∉ A ->
  A ++ DQUOTE :: R = pre ++ DQUOTE :: R' ->
  (pre = A /\ R = R') \/ exists m, pre = A ++ DQUOTE :: m /\ R = m ++ DQUOTE :: R'.
Proof.
  revert pre. induction A as [|a A IH]; intros pre Hn E.
  - destruct pre as [|x pre]; simpl in E; inversion E; subst; eauto.
  - destruct pre as [|x pre]; simpl in E; inversion E; subst.
    + exfalso. apply Hn. left.
    + destruct (IH pre) as [[-> ->] | (m & -> & ->)]; auto.
      * intros Hin. apply Hn. right. exact Hin.
      * right. exists m. auto.
Qed.

Lemma last_quote (g T X post : pystr) :
  DQUOTE ∉ T ->
  g ++ DQUOTE :: T = X ++ DQUOTE :: post ->
  X = g \/ exists n, g = X ++ DQUOTE :: n.
Proof.
  revert X. induction g as [|a g IH]; intros X Hn E.
  - destruct X as [|x X]; simpl in E; inversion E; subst; auto.
    exfalso. apply Hn. apply elem_of_app. right. left.
  - destruct X as [|x X]; simpl in E; inversion E; subst.
    + right. exists g. reflexivity.
    + destruct (IH X Hn) as [-> | (n & ->)]; auto.
      right. exists n. reflexivity.
Qed.

Lemma spaces_no_quote w : spaces w -> DQUOTE ∉ w.
Proof.
  intros Hw Hin. unfold spaces in Hw. rewrite Forall_forall in Hw.
  specialize (Hw _ Hin). discriminate Hw.
Qed.

Lemma quoted_inside_group pre p post group1 :
  include_match (pre ++ DQUOTE :: p ++ DQUOTE :: post) = Some group1 ->
  forall x, x ∈ p -> x ∈ group1.
Proof.
  intros Hm. apply include_match_shape in Hm.
  destruct Hm as (ws1 & ws2 & ws3 & t & e & E & H1 & H2 & H3 & _ & _ & _ & Ht & He).
  set (A := ws1 ++ HASH :: ws2 ++ py "include" ++ ws3).
  assert (HA : DQUOTE ∉ A).
  { unfold A. rewrite elem_of_app, elem_of_cons, elem_of_app, elem_of_app.
    intros [Hin | [Hin | [Hin | [Hin | Hin]]]].
    - exact (spaces_no_quote _ H1 Hin).
    - discriminate Hin.
    - exact (spaces_no_quote _ H2 Hin).
    - revert Hin. by_decide.
    - exact (spaces_no_quote _ H3 Hin). }
  assert (HT : DQUOTE ∉ t :: e).
  { intros Hin. apply elem_of_cons in Hin as [<- | Hin]; [discriminate Ht|].
    destruct He as [-> | ->]; [inversion Hin|].
    apply list_elem_of_singleton in Hin. discriminate Hin. }
  assert (E' : A ++ DQUOTE :: group1 ++ DQUOTE :: t :: e
               = pre ++ DQUOTE :: p ++ DQUOTE :: post).
  { rewrite E. unfold A. repeat (rewrite <- ?app_assoc; simpl). reflexivity. }
  clear E.
  apply first_quote in E' as [[_ E'] | (m & _ & E')]; [| |exact HA].
  - apply last_quote in E' as [-> | (n & ->)]; [| |exact HT].
    + auto.
    + intros x Hx. apply elem_of_app. left. exact Hx.
  - change (m ++ DQUOTE :: p ++ DQUOTE :: post)
      with (m ++ [DQUOTE] ++ p ++ DQUOTE :: post) in E'.
    rewrite !app_assoc in E'. rewrite <- (app_assoc m) in E'.
    apply last_quote in E' as [<- | (n & ->)]; [| |exact HT].
    + intros x Hx. rewrite !elem_of_app. auto.
    + intros x Hx. rewrite !elem_of_app. auto.
Qed.

(** C10. The captured text may hold any character but [)]: a match
    never captures a [)], so a line with a [)] between two double
    quotes is not recognised and is written as a plain line; and double
    quotes inside the captured text do not stop the match, which takes
    everything from the first quote to the last one. *)
Theorem include_capture_charset
    (os : OS) (recurse : path -> state -> result) (srcdir : path) :
  (forall line group1,
     include_match line = Some group1 -> RPAREN ∉ group1)
  /\ (forall pre p post st,
        RPAREN ∈ p ->
        let line := pre ++ DQUOTE :: p ++ DQUOTE :: post in
        include_match line = None
        /\ loop_body os recurse srcdir line st = Done (write line st))
  /\ (forall lead gap inner t e,
        spaces lead -> spaces gap -> gap <> [] ->
        inner <> [] -> RPAREN ∉ inner ->
        Re.isspace t = true -> e = [] \/ e = [LF] ->
        include_match
          (lead ++ py "#include" ++ gap ++ DQUOTE :: inner ++ DQUOTE :: t :: e)
        = Some inner).
Proof.
  split; [|split].
  - intros line g Hm. apply include_match_shape in Hm.
    destruct Hm as (? & ? & ? & ? & ? & _ & _ & _ & _ & _ & _ & Hg & _). exact Hg.
  - intros pre p post st Hp. cbv zeta.
    assert (Hnone : include_match (pre ++ DQUOTE :: p ++ DQUOTE :: post) = None).
    { destruct (include_match _) as [g|] eqn:Hm; [|reflexivity].
      exfalso.
      pose proof (quoted_inside_group _ _ _ _ Hm _ Hp) as Hin.
      apply include_match_shape in Hm.
      destruct Hm as (? & ? & ? & ? & ? & _ & _ & _ & _ & _ & _ & Hg & _).
      contradiction. }
    split; [exact Hnone|]. unfold loop_body. rewrite Hnone. reflexivity.
  - intros lead gap inner t e Hl Hg Hgne Hine Hin Ht He.
    apply include_match_shape.
    exists lead, [], gap, t, e.
    split; [reflexivity|]. split; [exact Hl|]. split; [constructor|].
    auto 10.
Qed.

Lemma include_capture_charset_witness :
  include_match (py "#include " ++ q "a" ++ py " " ++ q "b" ++ [LF])
  = Some (py "a" ++ [DQUOTE] ++ py " " ++ [DQUOTE] ++ py "b")
  /\ include_match (py "#include " ++ q "f(x).h" ++ [LF]) = None.
Proof.
  destruct (include_capture_charset Demo.os (fun _ st => Done st) [])
    as (_ & Hparen & Hquote).
  split.
  - apply (Hquote [] (py " ") (py "a" ++ [DQUOTE] ++ py " " ++ [DQUOTE] ++ py "b")
             LF []).
    + constructor.
    + repeat constructor.
    + discriminate.
    + discriminate.
    + by_decide.
    + reflexivity.
    + left; reflexivity.
  - apply (Hparen (py "#include ") (py "f(x).h") [LF] Demo.start).
    vm_compute. do 3 right. left.
Defined.

(** ** The console does not influence the stream or the record *)

Lemma same_output_write text st1 st2 :
  same_output st1 st2 -> same_output (write text st1) (write text st2).
Proof. intros [H1 H2]. split; simpl; congruence. Qed.

Lemma same_output_print t1 t2 st1 st2 :
  same_output st1 st2 -> same_output (print t1 st1) (print t2 st2).
Proof. intros [H1 H2]. split; simpl; congruence. Qed.

Lemma same_output_append p st1 st2 :
  same_output st1 st2 ->
  same_output (append_included p st1) (append_included p st2).
Proof. intros [H1 H2]. split; simpl; congruence. Qed.

Lemma for_each_same {A} (b : A -> state -> result) xs :
  (forall x s1 s2, same_output s1 s2 -> same_result (b x s1) (b x s2)) ->
  forall st1 st2, same_output st1 st2 ->
    same_result (for_each b xs st1) (for_each b xs st2).
Proof.
  intros Hb. induction xs as [|x xs IH]; intros st1 st2 Hs; simpl; [exact Hs|].
  specialize (Hb x st1 st2 Hs).
  destruct (b x st1), (b x st2); simpl in Hb; try contradiction; auto.
Qed.

Lemma amalgamate_same os src_root git_id fuel : forall filename st1 st2,
  same_output st1 st2 ->
  same_result (amalgamate os src_root git_id fuel filename st1)
              (amalgamate os src_root git_id fuel filename st2).
Proof.
  induction fuel as [|fuel IH]; intros filename st1 st2 Hs; simpl; [exact I|].
  assert (Hb : same_output (banners git_id st1) (banners git_id st2)).
  { unfold banners. auto using same_output_write. }
  destruct Hb as [Hb1 Hb2].
  cbn [already_included write banners] in *.
  destruct Hs as [Hs1 Hs2]. rewrite <- Hs2.
  destruct (decide _) as [Hin|Hn]; [split; simpl; congruence|].
  destruct (open_read os filename) as [[]|input_file]; simpl.
  - split; simpl; congruence.
  - split; [reflexivity|]. split; simpl; congruence.
  - match goal with
    | |- same_result
           (try_except_FileNotFoundError
              match for_each ?b ?xs ?s1 with _ => _ end _)
           (try_except_FileNotFoundError
              match for_each _ _ ?s2 with _ => _ end _) =>
        assert (Hl : same_result (for_each b xs s1) (for_each b xs s2))
    end.
    { apply for_each_same.
      - intros l s1 s2 Hss. unfold loop_body.
        destruct (include_match l).
        + destruct (path_exists os _); [apply IH, Hss|].
          apply (same_output_write l _ _ Hss).
        + apply (same_output_write l _ _ Hss).
      - split; simpl; congruence. }
    destruct (for_each _ _ _) as [a|ea a|], (for_each _ _ _) as [b|eb b|];
      simpl in Hl; try contradiction.
    + apply (same_output_write _ _ _ Hl).
    + destruct Hl as [<- Hl]. destruct ea; simpl.
      * apply same_output_write, same_output_print, Hl.
      * auto.
    + exact I.
Qed.

(** ** The archive builder, header by header *)

Section MainFacts.

Variable env : Env.
Variable fuel : nat.
Variable args : Args.

Local Notation "'step'" :=
  (amalgamate_header env fuel (source_dir_of env args) (simde_dir_of env args)
     (getcwd env) (git_id_of env args)).

Lemma header_step rel_path d d' :
  step rel_path d = Done d' ->
  archive d' = archive d
  /\ tree d' =
     if path_exists env (source_of env args rel_path)
     then add_header env fuel args (tree d) rel_path
     else tree d.
Proof.
  unfold amalgamate_header, add_header.
  fold (source_of env args rel_path) (dest_of env args rel_path).
  destruct (path_exists env (source_of env args rel_path)).
  - assert (Hs : same_result
                   (amalgamate env (getcwd env) (git_id_of env args) fuel
                      (source_of env args rel_path) (fresh_run (out d)))
                   (standalone env fuel args rel_path)).
    { apply amalgamate_same. split; reflexivity. }
    change {| stream := []; already_included := []; console := out d |}
      with (fresh_run (out d)).
    destruct (amalgamate _ _ _ _ _ (fresh_run (out d))) as [s| |];
      try discriminate.
    intros E; inversion E; subst; clear E. cbn [tree archive].
    destruct (standalone env fuel args rel_path) as [s'| |]; simpl in Hs;
      try contradiction.
    destruct Hs as [Hs _]. simpl. rewrite Hs. auto.
  - intros E; inversion E; subst. auto.
Qed.

Lemma headers_tree files : forall d d',
  for_each step files d = Done d' ->
  archive d' = archive d
  /\ tree d' =
     foldl (add_header env fuel args) (tree d) (present env args files).
Proof.
  induction files as [|rel files IH]; intros d d' H; simpl in H.
  - inversion H; subst. auto.
  - destruct (step rel d) as [d1| |] eqn:H1; try discriminate.
    apply header_step in H1 as [Ha Ht].
    apply IH in H as [Ha' Ht'].
    split; [congruence|]. rewrite Ht', Ht.
    unfold present. rewrite filter_cons.
    destruct (path_exists env (source_of env args rel)); simpl.
    + destruct (decide (true = true)); [reflexivity | contradiction].
    + destruct (decide (false = true)); [discriminate | reflexivity].
Qed.

Lemma foldl_add_header_list files : forall t,
  NoDup (dest_of env args <$> files) ->
  (forall rel, rel ∈ files -> t !! dest_of env args rel = None) ->
  map_to_list (foldl (add_header env fuel args) t files)
  ≡ₚ (header_file env fuel args <$> files) ++ map_to_list t.
Proof.
  induction files as [|rel files IH]; intros t Hnd Hfree; [reflexivity|].
  rewrite fmap_cons in Hnd. apply NoDup_cons in Hnd as [Hrel Hnd].
  simpl. rewrite IH; [|exact Hnd|].
  - unfold add_header at 1.
    rewrite map_to_list_insert by (apply Hfree; left).
    rewrite Permutation_middle. reflexivity.
  - intros r Hr. unfold add_header. rewrite lookup_insert_ne.
    + apply Hfree. right. exact Hr.
    + intros E. apply Hrel. rewrite E. apply list_elem_of_fmap_2. exact Hr.
Qed.

Lemma main_with_done files d :
  main_with env fuel files args = Done d ->
  tree d = (if path_exists env (py "COPYING")
            then <[license_dest env args := CopyOf (py "COPYING")]>
            else fun t => t)
             (foldl (add_header env fuel args) ∅ (present env args files))
  /\ archive d
     = Some (archive_name_of env args,
             zip_entries env (output_dir_of args) (tree d)).
Proof.
  unfold main_with.
  fold (source_dir_of env args) (output_dir_of args).
  fold (base_dir_of env args). fold (simde_dir_of env args).
  fold (archive_name_of env args) (git_id_of env args) (license_dest env args).
  destruct (for_each _ _ _) as [d1| |] eqn:Hl; try discriminate.
  apply headers_tree in Hl as [_ Ht]. cbn [tree say] in Ht.
  intros E; inversion E; subst; clear E. cbn [tree archive say put].
  destruct (path_exists env (py "COPYING")); cbn [tree put]; rewrite Ht; auto.
Qed.

End MainFacts.



(** ** The archive *)

(** What [main] builds in the tree with all the headers. *)
Lemma demo_built :
  main_with Demo.full_env 4 EXPECTED_FILES Demo.args = Done Demo.built.
Proof. vm_cast_no_check (eq_refl (Done Demo.built)). Qed.

Lemma demo_built_archive :
  archive Demo.built = Some (py "/out/simde-0.8.4.zip", Demo.built_entries).
Proof.
  vm_cast_no_check (eq_refl (Some (py "/out/simde-0.8.4.zip", Demo.built_entries))).
Qed.

Lemma demo_all_present rel_path :
  rel_path ∈ EXPECTED_FILES ->
  path_exists Demo.full_env (source_of Demo.full_env Demo.args rel_path) = true.
Proof. revert rel_path. apply Forall_forall. by_decide. Qed.

(** C7, as the specification words it, fails on the entry names: with
    every configured header and the license present, the names are not
    the staged paths relative to the staging directory
    [/out/simde-0.8.4] (which would give [COPYING]); they start with
    the staging directory's own name. *)
Lemma archive_names_counterexample :
  main Demo.full_env 4 Demo.args = Done Demo.built
  /\ (forall rel_path, rel_path ∈ EXPECTED_FILES ->
        path_exists Demo.full_env (source_of Demo.full_env Demo.args rel_path)
        = true)
  /\ base_dir_of Demo.full_env Demo.args = py "/out/simde-0.8.4"
  /\ ~ names_relative_to Demo.full_env
         (base_dir_of Demo.full_env Demo.args) Demo.built.
Proof.
  split; [exact demo_built|]. split; [exact demo_all_present|].
  split; [reflexivity|].
  intros (name & entries & Ha & Hp).
  rewrite demo_built_archive in Ha. inversion Ha; subst name entries; clear Ha.
  assert (Hin : py "COPYING" ∈ Demo.built_entries.*1).
  { rewrite Hp. by_decide. }
  revert Hin. by_decide.
Qed.

Lemma present_all (env : Env) (args : Args) (files : list path) :
  (forall rel_path, rel_path ∈ files ->
     path_exists env (source_of env args rel_path) = true) ->
  present env args files = files.
Proof.
  unfold present. induction files as [|r rs IH]; intros Hall; [reflexivity|].
  rewrite filter_cons. rewrite (Hall r) by left.
  destruct (decide (true = true)); [|contradiction].
  f_equal. apply IH. intros x Hx. apply Hall. right; exact Hx.
Qed.

(** C7, amended. When every configured header exists, the destinations
    are pairwise different and [main] completes, the archive holds one
    entry per configured header, with its amalgamated text, and one
    for the license when [COPYING] exists, and nothing else; each entry
    is named by the path of the staged file relative to the output
    directory. *)
Theorem archive_completeness
    (env : Env) (fuel : nat) (args : Args) (files : list path) (d : disk)
    (Hall : forall rel_path, rel_path ∈ files ->
        path_exists env (source_of env args rel_path) = true)
    (Hdistinct :
       NoDup ((dest_of env args <$> files) ++ (license_files env args).*1))
    (Hdone : main_with env fuel files args = Done d) :
  exists entries,
    archive d = Some (archive_name_of env args, entries)
    /\ entries ≡ₚ
         archive_entry env (output_dir_of args)
           <$> ((header_file env fuel args <$> files) ++ license_files env args)
    /\ length entries = (length files + length (license_files env args))%nat.
Proof.
  apply main_with_done in Hdone as [Ht Ha].
  pose proof (present_all env args files Hall) as Hpresent.
  rewrite Hpresent in Ht.
  apply NoDup_app in Hdistinct as (Hnd & Hdisj & _).
  pose proof (foldl_add_header_list env fuel args files ∅ Hnd
                (fun _ _ => lookup_empty _)) as Hlist.
  rewrite map_to_list_empty, app_nil_r in Hlist.
  assert (Hentries :
    map_to_list (tree d)
    ≡ₚ (header_file env fuel args <$> files) ++ license_files env args).
  { rewrite Ht. unfold license_files in *.
    destruct (path_exists env (py "COPYING")).
    - rewrite map_to_list_insert.
      + rewrite Hlist. apply Permutation_cons_append.
      + destruct (foldl _ _ _ !! license_dest env args) as [v|] eqn:Hl;
          [|reflexivity].
        exfalso. apply elem_of_map_to_list in Hl. rewrite Hlist in Hl.
        apply list_elem_of_fmap in Hl as (r & E & Hr).
        inversion E as [[Ed Ev]].
        apply (Hdisj (dest_of env args r)).
        * apply list_elem_of_fmap_2, Hr.
        * simpl. rewrite <- Ed. left.
    - rewrite app_nil_r. exact Hlist. }
  exists (zip_entries env (output_dir_of args) (tree d)).
  split; [exact Ha|].
  assert (Hzip : zip_entries env (output_dir_of args) (tree d)
                 = archive_entry env (output_dir_of args) <$> map_to_list (tree d)).
  { unfold zip_entries. apply map_ext. intros [p f]. reflexivity. }
  rewrite Hzip. split.
  - rewrite Hentries. reflexivity.
  - rewrite length_fmap, Hentries, length_app, length_fmap. reflexivity.
Qed.

Lemma archive_completeness_witness :
  exists entries,
    archive Demo.built = Some (py "/out/simde-0.8.4.zip", entries)
    /\ length entries = 23%nat
    /\ (py "simde-0.8.4/COPYING", CopyOf (py "COPYING")) ∈ entries.
Proof.
  assert (Hdistinct :
    NoDup ((dest_of Demo.full_env Demo.args <$> EXPECTED_FILES)
           ++ (license_files Demo.full_env Demo.args).*1)).
  { by_decide. }
  destruct (archive_completeness Demo.full_env 4 Demo.args EXPECTED_FILES
              Demo.built demo_all_present Hdistinct demo_built)
    as (entries & Ha & Hp & Hlen).
  exists entries. split; [exact Ha|]. split; [exact Hlen|].
  rewrite Hp. apply list_elem_of_fmap.
  exists (license_dest Demo.full_env Demo.args, CopyOf (py "COPYING")).
  split; [reflexivity|]. apply elem_of_app. right. left.
Defined.

(** ** Every file a run reaches is expanded in its output *)

Lemma for_each_rel_done {A S} (R : S -> S -> Prop) `{!PreOrder R}
    (body : A -> S -> outcome S) xs :
  (forall x s s', x ∈ xs -> body x s = Done s' -> R s s') ->
  forall st st', for_each body xs st = Done st' -> R st st'.
Proof.
  induction xs as [|x xs IH]; intros Hb st st' H; simpl in H.
  - inversion H; subst. reflexivity.
  - destruct (body x st) as [s1|e s1|] eqn:Hx; try discriminate.
    transitivity s1.
    + apply (Hb x); [left | exact Hx].
    + apply IH; [|exact H]. intros y s s' Hy. apply Hb. right; exact Hy.
Qed.

Section Visit.

Variable os : OS.
Variable src_root : path.
Variable git_id : pystr.

Local Notation "'amalg'" := (amalgamate os src_root git_id).
Local Notation "'bnrs'" := (banners git_id).
Local Notation "'body'" := (loop_body os).

Lemma extends_already st st' x :
  extends st st' -> x ∈ already_included st -> x ∈ already_included st'.
Proof.
  intros (_ & [k Hk] & _) Hx. rewrite Hk. apply elem_of_app. left; exact Hx.
Qed.

Lemma extends_stream st st' :
  extends st st' -> exists d, stream st' = stream st ++ d.
Proof. intros ([k Hk] & _). eauto. Qed.

#[global] Instance visits_preorder : PreOrder (visits os src_root git_id).
Proof.
  split.
  - intros st. split; [reflexivity|]. intros T Hin Hn. contradiction.
  - intros a b c [Hab Vab] [Hbc Vbc].
    split; [etransitivity; eauto|].
    intros T Hc Ha.
    destruct (decide (T ∈ already_included b)) as [Hb|Hb].
    + destruct (Vab T Hb Ha) as (g & Hg & Hk & Hx).
      exists g. split; [exact Hg|]. split.
      * intros k Hin. eapply extends_already; eauto.
      * intros input_file Ho.
        destruct (Hx _ Ho) as (block & before & after & Hf & Hs).
        destruct (extends_stream _ _ Hbc) as [d Hd].
        exists block, before, (after ++ d). split; [exact Hf|].
        rewrite Hd, Hs. rewrite <- !app_assoc. reflexivity.
    + destruct (Vbc T Hc Hb) as (g & Hg & Hk & Hx).
      exists g. split; [exact Hg|]. split; [exact Hk|].
      intros input_file Ho.
      destruct (Hx _ Ho) as (block & before & after & Hf & Hs).
      destruct (extends_stream _ _ Hab) as [d Hd].
      exists block, (d ++ before), after. split; [exact Hf|].
      rewrite Hs, Hd. rewrite <- !app_assoc. reflexivity.
Qed.

Lemma visits_silent st st' :
  extends st st' -> already_included st' = already_included st ->
  visits os src_root git_id st st'.
Proof.
  intros He Ha. split; [exact He|]. intros T Hin Hn.
  rewrite Ha in Hin. contradiction.
Qed.

(** After the loop over the lines of a file, every include target of
    these lines is on record. *)
Lemma loop_targets_recorded fuel srcdir input_file : forall st st',
  for_each (body (amalg fuel) srcdir) input_file st = Done st' ->
  forall k, k ∈ omap (line_target os srcdir) input_file ->
    realpath os k ∈ already_included st'.
Proof.
  induction input_file as [|l ls IH]; intros st st' H k Hk; simpl in *.
  - inversion Hk.
  - destruct (body (amalg fuel) srcdir l st) as [s1| |] eqn:Hb; try discriminate.
    assert (Hext : extends s1 st').
    { eapply (for_each_rel extends); [|rewrite H; reflexivity].
      intros x s s' _. apply body_extends. intros p s0 s0' Hp.
      etransitivity; [apply extends_banners | eapply amalgamate_extends, Hp]. }
    unfold loop_body in Hb. unfold line_target at 1 in Hk.
    destruct (include_match l) as [g1|]; [|eauto].
    destruct (path_exists os (join os srcdir g1)); [|eauto].
    apply elem_of_cons in Hk as [-> | Hk]; [|eauto].
    eapply extends_already; [exact Hext|].
    eapply amalgamate_extends. rewrite Hb. reflexivity.
Qed.

Lemma amalgamate_visits fuel : forall filename st st',
  amalg fuel filename st = Done st' -> visits os src_root git_id st st'.
Proof.
  induction fuel as [|fuel IH]; intros filename st st' H; [discriminate|].
  destruct (decide (realpath os filename ∈ already_included st)) as [Hin|Hn].
  { rewrite amalgamate_seen in H by exact Hin. inversion H; subst.
    apply visits_silent; [apply extends_banners | reflexivity]. }
  assert (Hext : extends st st').
  { etransitivity; [apply extends_banners|].
    eapply amalgamate_extends. rewrite H. reflexivity. }
  destruct (open_read os filename) as [[]|input_file] eqn:Ho.
  - rewrite amalgamate_fresh_not_found in H by assumption.
    inversion H; subst; clear H. split; [exact Hext|].
    intros T HT HnT. cbn [already_included write print append_included banners] in HT.
    apply elem_of_app in HT as [HT | HT]; [contradiction|].
    apply list_elem_of_singleton in HT as ->.
    exists filename. split; [reflexivity|]. split.
    + unfold include_targets. rewrite Ho. intros k Hk. inversion Hk.
    + intros input_file Ho'. congruence.
  - rewrite amalgamate_fresh_error in H by assumption. discriminate.
  - rewrite (amalgamate_fresh_open _ _ _ _ _ _ input_file) in H by assumption.
    cbv zeta in H.
    set (st1 := append_included (realpath os filename) (bnrs st)) in H.
    set (rel := rel_path_of os src_root (realpath os filename)) in H.
    set (st2 := write (begin_marker rel) st1) in H.
    destruct (for_each _ _ st2) as [s| |] eqn:Hl; try discriminate.
    inversion H; subst st'; clear H.
    assert (Hloop : visits os src_root git_id st2 s).
    { revert Hl. apply (for_each_rel_done (visits os src_root git_id)).
      intros l s1 s2 _. unfold loop_body.
      destruct (include_match l).
      - destruct (path_exists os _); [apply IH|].
        intros E; inversion E.
        apply visits_silent; [apply extends_write | reflexivity].
      - intros E; inversion E.
        apply visits_silent; [apply extends_write | reflexivity]. }
    destruct Hloop as [He2 Hv2].
    destruct (extends_stream _ _ He2) as [written Hw].
    split; [exact Hext|].
    intros T HT HnT. cbn [already_included write] in HT.
    destruct (decide (T = realpath os filename)) as [->|Hne].
    + exists filename. split; [reflexivity|]. split.
      * unfold include_targets. rewrite Ho. intros k Hk.
        cbn [already_included write].
        eapply loop_targets_recorded; eauto.
      * intros input_file' Ho'.
        exists (banner_notice ++ banner_version git_id ++ begin_marker rel
                  ++ written ++ end_marker rel), [], [].
        split.
        -- exists fuel, input_file, st2, s, written. auto.
        -- cbn [stream write]. rewrite Hw.
           unfold st2, st1.
           cbn [stream write append_included banners].
           rewrite app_nil_r. rewrite <- !app_assoc. reflexivity.
    + assert (HnT2 : T ∉ already_included st2).
      { unfold st2, st1. cbn [already_included write append_included banners].
        intros Hin. apply elem_of_app in Hin as [Hin|Hin]; [contradiction|].
        apply list_elem_of_singleton in Hin. contradiction. }
      destruct (Hv2 T HT HnT2) as (g & Hg & Hk & Hx).
      exists g. split; [exact Hg|]. split; [exact Hk|].
      intros input_file' Ho'.
      destruct (Hx _ Ho') as (block & before & after & Hf & Hs).
      exists block,
        (banner_notice ++ banner_version git_id ++ begin_marker rel ++ before),
        (after ++ end_marker rel).
      split; [exact Hf|].
      cbn [stream write]. rewrite Hs. unfold st2, st1.
      cbn [stream write append_included banners].
      rewrite <- !app_assoc. reflexivity.
Qed.

End Visit.

(** ** From an empty record, everything reachable is visited *)

Section Closure.

Variable os : OS.
Variable src_root : path.
Variable git_id : pystr.
Hypothesis Hconsistent : consistent os.

Lemma include_targets_same a b :
  realpath os a = realpath os b -> include_targets os a = include_targets os b.
Proof.
  intros E. unfold include_targets. rewrite (Hconsistent a b E), E. reflexivity.
Qed.


Lemma reachable_recorded fuel top st' :
  amalgamate os src_root git_id fuel top (fresh_run []) = Done st' ->
  forall f T, reaches os f T ->
    realpath os f ∈ already_included st' ->
    realpath os T ∈ already_included st'.
Proof.
  intros Hrun f T Hreach.
  apply amalgamate_visits in Hrun as [_ Hv].
  induction Hreach as [f | f k g Hk _ IH]; intros Hf; [exact Hf|].
  apply IH.
  destruct (Hv (realpath os f) Hf) as (g0 & Hg0 & Htargets & _).
  { intros Hin. inversion Hin. }
  apply Htargets. rewrite (include_targets_same g0 f Hg0). exact Hk.
Qed.


End Closure.

(** ** Run isolation *)

Lemma for_each_done_each {A S} (body : A -> S -> outcome S) xs :
  forall st st', for_each body xs st = Done st' ->
  forall x, x ∈ xs -> exists s s', body x s = Done s'.
Proof.
  induction xs as [|y xs IH]; intros st st' H x Hx; [inversion Hx|].
  simpl in H. destruct (body y st) as [s1| |] eqn:Hy; try discriminate.
  apply elem_of_cons in Hx as [-> | Hx]; eauto.
Qed.

Lemma main_with_standalone (env : Env) fuel args files d H :
  main_with env fuel files args = Done d ->
  H ∈ files ->
  path_exists env (source_of env args H) = true ->
  exists st, standalone env fuel args H = Done st.
Proof.
  unfold main_with.
  fold (source_dir_of env args) (output_dir_of args).
  fold (base_dir_of env args). fold (simde_dir_of env args).
  fold (git_id_of env args).
  destruct (for_each _ _ _) as [d1| |] eqn:Hl; try discriminate.
  intros _ Hin Hex.
  destruct (for_each_done_each _ _ _ _ Hl H Hin) as (s & s' & Hstep).
  unfold amalgamate_header in Hstep.
  fold (source_of env args H) in Hstep. rewrite Hex in Hstep.
  pose proof (amalgamate_same env (getcwd env) (git_id_of env args) fuel
                (source_of env args H) (fresh_run (out s)) (fresh_run []))
    as Hs.
  change {| stream := []; already_included := []; console := out s |}
    with (fresh_run (out s)) in Hstep.
  unfold standalone.
  destruct (amalgamate _ _ _ _ _ (fresh_run (out s))) as [a| |];
    try discriminate.
  destruct (amalgamate _ _ _ _ _ (fresh_run [])) as [b| |]; eauto;
    exfalso; apply Hs; split; reflexivity.
Qed.

Lemma main_with_lookup (env : Env) fuel args files d H :
  NoDup ((dest_of env args <$> files) ++ (license_files env args).*1) ->
  main_with env fuel files args = Done d ->
  H ∈ files ->
  path_exists env (source_of env args H) = true ->
  tree d !! dest_of env args H
  = Some (Text (text_of (standalone env fuel args H))).
Proof.
  intros Hnd Hdone Hin Hex.
  apply main_with_done in Hdone as [Ht _].
  apply NoDup_app in Hnd as (Hnd & Hdisj & _).
  assert (Hp : H ∈ present env args files).
  { unfold present. apply list_elem_of_filter. auto. }
  assert (Hndp : NoDup (dest_of env args <$> present env args files)).
  { eapply sublist_NoDup; [exact Hnd|].
    apply fmap_sublist, sublist_filter. }
  pose proof (foldl_add_header_list env fuel args _ ∅ Hndp
                (fun _ _ => lookup_empty _)) as Hlist.
  rewrite map_to_list_empty, app_nil_r in Hlist.
  assert (Hl : foldl (add_header env fuel args) ∅ (present env args files)
               !! dest_of env args H
               = Some (Text (text_of (standalone env fuel args H)))).
  { apply elem_of_map_to_list. rewrite Hlist.
    apply (list_elem_of_fmap_2 (header_file env fuel args)). exact Hp. }
  rewrite Ht. unfold license_files in Hdisj.
  destruct (path_exists env (py "COPYING")); [|exact Hl].
  rewrite lookup_insert_ne; [exact Hl|].
  intros E. apply (Hdisj (dest_of env args H)).
  - apply list_elem_of_fmap_2. exact Hin.
  - simpl. rewrite <- E. left.
Qed.


Lemma posix_consistent cwd t git : consistent (Posix.env cwd t git).
Proof. intros a b E. simpl in *. rewrite E. reflexivity. Qed.

Lemma demo_small :
  main_with Demo.env 8 EXPECTED_FILES Demo.args = Done Demo.small.
Proof. vm_cast_no_check (eq_refl (Done Demo.small)). Qed.


(** * Further properties of the code *)

(** ** What a call writes depends on the record alone *)

Lemma framed_write before text st1 st2 :
  framed before st1 st2 -> framed before (write text st1) (write text st2).
Proof.
  intros [H1 H2]. split; simpl; [|exact H2].
  rewrite H1, app_assoc. reflexivity.
Qed.

Lemma framed_print before t1 t2 st1 st2 :
  framed before st1 st2 -> framed before (print t1 st1) (print t2 st2).
Proof. intros [H1 H2]. split; simpl; assumption. Qed.

Lemma framed_append before p st1 st2 :
  framed before st1 st2 ->
  framed before (append_included p st1) (append_included p st2).
Proof. intros [H1 H2]. split; simpl; congruence. Qed.

Lemma for_each_framed {A} before (b : A -> state -> result) xs :
  (forall x s1 s2, framed before s1 s2 -> framed_result before (b x s1) (b x s2)) ->
  forall st1 st2, framed before st1 st2 ->
    framed_result before (for_each b xs st1) (for_each b xs st2).
Proof.
  intros Hb. induction xs as [|x xs IH]; intros st1 st2 Hs; simpl; [exact Hs|].
  specialize (Hb x st1 st2 Hs).
  destruct (b x st1), (b x st2); simpl in Hb; try contradiction; auto.
Qed.

Lemma amalgamate_framed os src_root git_id before fuel :
  forall filename st1 st2,
    framed before st1 st2 ->
    framed_result before (amalgamate os src_root git_id fuel filename st1)
                         (amalgamate os src_root git_id fuel filename st2).
Proof.
  induction fuel as [|fuel IH]; intros filename st1 st2 Hs; [exact I|].
  assert (Hb : framed before (banners git_id st1) (banners git_id st2)).
  { unfold banners. auto using framed_write. }
  destruct (decide (realpath os filename ∈ already_included st1)) as [Hin|Hn].
  - rewrite !amalgamate_seen; [exact Hb | | exact Hin].
    destruct Hs as [_ <-]. exact Hin.
  - assert (Hn2 : realpath os filename ∉ already_included st2).
    { destruct Hs as [_ <-]. exact Hn. }
    pose proof (framed_append before (realpath os filename) _ _ Hb) as Ha.
    destruct (open_read os filename) as [[]|input_file] eqn:Ho.
    + rewrite !amalgamate_fresh_not_found by assumption.
      apply framed_write, framed_print, Ha.
    + rewrite !amalgamate_fresh_error by assumption. split; [reflexivity|exact Ha].
    + rewrite !(amalgamate_fresh_open _ _ _ _ _ _ input_file) by assumption.
      cbv zeta.
      match goal with
      | |- framed_result _ match for_each ?b ?xs ?s1 with _ => _ end
                           match for_each _ _ ?s2 with _ => _ end =>
          assert (Hl : framed_result before (for_each b xs s1) (for_each b xs s2))
      end.
      { apply for_each_framed; [|apply framed_write, Ha].
        intros l s1 s2 Hss. unfold loop_body.
        destruct (include_match l).
        - destruct (path_exists os _); [apply IH, Hss|].
          apply (framed_write before l _ _ Hss).
        - apply (framed_write before l _ _ Hss). }
      destruct (for_each _ _ _) as [a|ea a|], (for_each _ _ _) as [b|eb b|];
        simpl in Hl; try contradiction; auto.
      apply (framed_write _ _ _ _ Hl).
Qed.

(** X1. What [amalgamate] adds to the stream, what it puts on record
    and whether it raises depend on the record it is given only: the
    call in a state with text already in the stream ends like the call
    in the state with the same record and an empty stream and console,
    with that text in front. *)
Theorem amalgamate_frame
    (os : OS) (src_root : path) (git_id : pystr) (fuel : nat)
    (filename : path) (st : state) :
  framed_result (stream st)
    (amalgamate os src_root git_id fuel filename st)
    (amalgamate os src_root git_id fuel filename (record_only st)).
Proof.
  apply amalgamate_framed. split; simpl; [|reflexivity].
  rewrite app_nil_r. reflexivity.
Qed.

(** ** The record holds no path twice *)

#[global] Instance nodup_kept_preorder : PreOrder nodup_kept.
Proof. split; [intros s; exact id | intros a b c Hab Hbc Ha; auto]. Qed.

Lemma amalgamate_keeps_nodup os src_root git_id fuel :
  forall filename st st',
    final (amalgamate os src_root git_id fuel filename st) = Some st' ->
    nodup_kept st st'.
Proof.
  induction fuel as [|fuel IH]; intros filename st st' H Hnd; [discriminate|].
  destruct (decide (realpath os filename ∈ already_included st)) as [Hin|Hn].
  { rewrite amalgamate_seen in H by exact Hin. inversion H; subst. exact Hnd. }
  assert (H1 : NoDup (already_included
                        (append_included (realpath os filename)
                           (banners git_id st)))).
  { cbn [already_included append_included banners write].
    apply NoDup_app. split; [exact Hnd|]. split; [|apply NoDup_singleton].
    intros x Hx Hx'. apply list_elem_of_singleton in Hx'. subst. contradiction. }
  destruct (open_read os filename) as [[]|input_file] eqn:Ho.
  - rewrite amalgamate_fresh_not_found in H by assumption.
    inversion H; subst. exact H1.
  - rewrite amalgamate_fresh_error in H by assumption.
    inversion H; subst. exact H1.
  - rewrite (amalgamate_fresh_open _ _ _ _ _ _ input_file) in H by assumption.
    cbv zeta in H.
    assert (Hloop : forall s s',
      final (for_each (loop_body os (amalgamate os src_root git_id fuel)
                         (dirname os (realpath os filename))) input_file s)
      = Some s' ->
      nodup_kept s s').
    { apply (for_each_rel nodup_kept).
      intros l s s' _. unfold loop_body.
      destruct (include_match l).
      - destruct (path_exists os _); [apply IH|].
        simpl. intros E; inversion E; subst. exact id.
      - simpl. intros E; inversion E; subst. exact id. }
    destruct (for_each _ _ _) as [s|e s|] eqn:Hl; [| |discriminate].
    + inversion H; subst. cbn [already_included write].
      eapply Hloop; [rewrite Hl; reflexivity | exact H1].
    + inversion H; subst.
      eapply Hloop; [rewrite Hl; reflexivity | exact H1].
Qed.

(** X2. [amalgamate] keeps the record free of duplicates: if no path
    occurs twice in the list before a call, none does after it, whether
    the call returns or raises; so a run that starts from the empty
    list never records a path twice. *)
Theorem record_without_duplicates
    (os : OS) (src_root : path) (git_id : pystr) (fuel : nat)
    (filename : path) (st st' : state)
    (Hnodup : NoDup (already_included st))
    (Hrun : final (amalgamate os src_root git_id fuel filename st) = Some st') :
  NoDup (already_included st').
Proof. exact (amalgamate_keeps_nodup os src_root git_id fuel _ _ _ Hrun Hnodup). Qed.

Lemma record_without_duplicates_witness :
  NoDup (already_included Demo.after_sse2).
Proof.
  apply (record_without_duplicates Demo.os Demo.cwd Demo.git_id 8 Demo.sse2
           Demo.start Demo.after_sse2).
  - constructor.
  - vm_compute. reflexivity.
Defined.

(** ** The record of a run is the set of files its top file reaches *)

#[global] Instance reached_from_preorder os f : PreOrder (reached_from os f).
Proof.
  split.
  - intros st. split; [reflexivity|]. intros T Hin Hn. contradiction.
  - intros a b c [Hab Rab] [Hbc Rbc]. split; [etransitivity; eauto|].
    intros T Hc Ha.
    destruct (decide (T ∈ already_included b)) as [Hb|Hb]; [eauto|].
    apply Rbc; assumption.
Qed.

Lemma reached_from_silent os f st st' :
  extends st st' -> already_included st' = already_included st ->
  reached_from os f st st'.
Proof.
  intros He Ha. split; [exact He|]. intros T Hin Hn.
  rewrite Ha in Hin. contradiction.
Qed.

Lemma reached_from_include os f k st st' :
  k ∈ include_targets os f ->
  reached_from os k st st' -> reached_from os f st st'.
Proof.
  intros Hk [He Hr]. split; [exact He|]. intros T Hin Hn.
  destruct (Hr T Hin Hn) as (g & Hg & HT).
  exists g. split; [|exact HT]. eapply reaches_include; eauto.
Qed.

Lemma amalgamate_reached os src_root git_id fuel : forall filename st st',
  final (amalgamate os src_root git_id fuel filename st) = Some st' ->
  reached_from os filename st st'.
Proof.
  induction fuel as [|fuel IH]; intros filename st st' H; [discriminate|].
  destruct (decide (realpath os filename ∈ already_included st)) as [Hin|Hn].
  { rewrite amalgamate_seen in H by exact Hin. inversion H; subst.
    apply reached_from_silent; [apply extends_banners | reflexivity]. }
  set (st1 := append_included (realpath os filename) (banners git_id st)).
  assert (H1 : reached_from os filename st st1).
  { split.
    - etransitivity; [apply extends_banners | apply extends_append_included].
    - intros T HT HnT. unfold st1 in HT.
      cbn [already_included append_included banners write] in HT.
      apply elem_of_app in HT as [HT|HT]; [contradiction|].
      apply list_elem_of_singleton in HT as ->.
      exists filename. split; [apply reaches_here | reflexivity]. }
  destruct (open_read os filename) as [[]|input_file] eqn:Ho.
  - rewrite amalgamate_fresh_not_found in H by assumption.
    inversion H; subst. fold st1.
    etransitivity; [exact H1|].
    apply reached_from_silent; [|reflexivity].
    etransitivity; [apply extends_print | apply extends_write].
  - rewrite amalgamate_fresh_error in H by assumption.
    inversion H; subst. exact H1.
  - rewrite (amalgamate_fresh_open _ _ _ _ _ _ input_file) in H by assumption.
    cbv zeta in H. fold st1 in H.
    set (st2 := write _ st1) in H.
    assert (H2 : reached_from os filename st1 st2).
    { apply reached_from_silent; [apply extends_write | reflexivity]. }
    assert (Hloop : forall s',
      final (for_each (loop_body os (amalgamate os src_root git_id fuel)
                         (dirname os (realpath os filename))) input_file st2)
      = Some s' -> reached_from os filename st2 s').
    { apply (for_each_rel (reached_from os filename)).
      intros l s s' Hl. unfold loop_body.
      destruct (include_match l) as [g1|] eqn:Hm.
      - destruct (path_exists os _) eqn:He.
        + intros Hcall. apply (reached_from_include os filename
                                 (join os (dirname os (realpath os filename)) g1)).
          * unfold include_targets. rewrite Ho. apply list_elem_of_omap.
            exists l. split; [exact Hl|]. unfold line_target. rewrite Hm, He.
            reflexivity.
          * apply IH, Hcall.
        + simpl. intros E; inversion E.
          apply reached_from_silent; [apply extends_write | reflexivity].
      - simpl. intros E; inversion E.
        apply reached_from_silent; [apply extends_write | reflexivity]. }
    destruct (for_each _ _ _) as [s|e s|] eqn:Hl; [| |discriminate].
    + inversion H; subst.
      etransitivity; [exact H1|]. etransitivity; [exact H2|].
      etransitivity; [apply Hloop; reflexivity|].
      apply reached_from_silent; [apply extends_write | reflexivity].
    + inversion H; subst.
      etransitivity; [exact H1|]. etransitivity; [exact H2|].
      apply Hloop; reflexivity.
Qed.

(** X3. After a run of [amalgamate] that starts from the empty record
    and returns, the record holds exactly the canonical paths of the
    files that the top file reaches through include lines whose targets
    exist (itself included), when two names of one canonical path open
    the same file. *)
Theorem record_is_reachable_set
    (os : OS) (src_root : path) (git_id : pystr) (fuel : nat)
    (top : path) (st' : state) (T : path)
    (Hconsistent : consistent os)
    (Hrun : amalgamate os src_root git_id fuel top (fresh_run []) = Done st') :
  T ∈ already_included st' <->
  exists g, reaches os top g /\ realpath os g = T.
Proof.
  split.
  - intros HT.
    assert (Hf : final (amalgamate os src_root git_id fuel top (fresh_run []))
                 = Some st') by (rewrite Hrun; reflexivity).
    apply amalgamate_reached in Hf as [_ Hr].
    apply Hr; [exact HT|]. intros Hin. inversion Hin.
  - intros (g & Hg & <-).
    eapply (reachable_recorded os src_root git_id Hconsistent); eauto.
    eapply amalgamate_extends. rewrite Hrun. reflexivity.
Qed.

Lemma record_is_reachable_set_witness :
  Demo.common ∈ already_included Demo.after_sse2
  <-> exists g, reaches Demo.os Demo.sse2 g /\ realpath Demo.os g = Demo.common.
Proof.
  apply (record_is_reachable_set Demo.os Demo.cwd Demo.git_id 8 Demo.sse2
           Demo.after_sse2 Demo.common (posix_consistent Demo.cwd Demo.files None)).
  vm_compute. reflexivity.
Defined.

(** ** A file without resolvable includes is copied whole *)




(** ** Lines the pattern can never match *)

Lemma include_match_last line group1 :
  include_match line = Some group1 ->
  exists t, last line = Some t /\ Re.isspace t = true.
Proof.
  intros Hm. apply include_match_shape in Hm.
  destruct Hm as (ws1 & ws2 & ws3 & t & e & -> & _ & _ & _ & _ & _ & _ & Ht & He).
  destruct He as [-> | ->].
  - exists t. split; [|exact Ht].
    change (ws1 ++ HASH :: ws2 ++ py "include" ++ ws3 ++ DQUOTE :: group1 ++ [DQUOTE; t])
      with (ws1 ++ [HASH] ++ ws2 ++ py "include" ++ ws3 ++ [DQUOTE] ++ group1
                ++ [DQUOTE] ++ [t]).
    rewrite !app_assoc. apply last_snoc.
  - exists LF. split; [|reflexivity].
    change (ws1 ++ HASH :: ws2 ++ py "include" ++ ws3
                ++ DQUOTE :: group1 ++ [DQUOTE; t; LF])
      with (ws1 ++ [HASH] ++ ws2 ++ py "include" ++ ws3 ++ [DQUOTE] ++ group1
                ++ [DQUOTE] ++ [t] ++ [LF]).
    rewrite !app_assoc. apply last_snoc.
Qed.

(** X5. A line that does not end in a whitespace character is never
    an include line: the empty line, and above all an include directive
    on the last line of a file that lacks its final newline, are
    written to the stream as they are. *)
Theorem line_without_trailing_whitespace_is_plain
    (os : OS) (recurse : path -> state -> result) (srcdir : path)
    (line : pystr) (st : state)
    (Hlast : forall t, last line = Some t -> Re.isspace t = false) :
  include_match line = None
  /\ loop_body os recurse srcdir line st = Done (write line st).
Proof.
  assert (Hnone : include_match line = None).
  { destruct (include_match line) as [g|] eqn:Hm; [|reflexivity].
    destruct (include_match_last _ _ Hm) as (t & Hl & Ht).
    rewrite (Hlast t Hl) in Ht. discriminate. }
  split; [exact Hnone|]. unfold loop_body. rewrite Hnone. reflexivity.
Qed.

Lemma line_without_trailing_whitespace_is_plain_witness :
  include_match (py "#include " ++ q "mmx.h") = None.
Proof.
  refine (proj1 (line_without_trailing_whitespace_is_plain Demo.os
                   (fun _ st => Done st) [] (py "#include " ++ q "mmx.h")
                   Demo.start _)).
  intros t Ht. vm_compute in Ht. inversion Ht. reflexivity.
Defined.

(** X6. An include directive whose path is written between angle
    brackets is never matched, whatever follows the opening bracket: it
    is written to the stream as it is. *)
Theorem angle_include_is_plain
    (os : OS) (recurse : path -> state -> result) (srcdir : path)
    (lead inner gap rest : pystr) (st : state)
    (Hlead : spaces lead) (Hinner : spaces inner) (Hgap : spaces gap) :
  let line := lead ++ HASH :: inner ++ py "include" ++ gap ++ py "<" ++ rest in
  include_match line = None
  /\ loop_body os recurse srcdir line st = Done (write line st).
Proof.
  cbv zeta.
  assert (Hnone : include_match
            (lead ++ HASH :: inner ++ py "include" ++ gap ++ py "<" ++ rest)
          = None).
  { destruct (include_match _) as [g|] eqn:Hm; [|reflexivity]. exfalso.
    apply include_match_shape in Hm.
    destruct Hm as (ws1 & ws2 & ws3 & t & e & E & H1 & H2 & H3 & _).
    apply spaces_split in E as (_ & _ & E); auto.
    cbn [py List.map list_ascii_of_string app] in E.
    apply spaces_split in E as (_ & _ & E); auto.
    do 6 (apply (f_equal (@tl N)) in E; cbn [tl] in E).
    apply spaces_split in E as (_ & E & _); auto.
    discriminate E. }
  split; [exact Hnone|]. unfold loop_body. rewrite Hnone. reflexivity.
Qed.

Lemma angle_include_is_plain_witness :
  include_match (py "  # include <stdint.h>" ++ [LF]) = None.
Proof.
  refine (proj1 (angle_include_is_plain Demo.os (fun _ st => Done st) []
                   (py "  ") (py " ") (py " ") (py "stdint.h>" ++ [LF])
                   Demo.start _ _ _)); repeat constructor.
Defined.

(** ** The path in the markers *)

Lemma replace_removes old new (s : pystr) :
  new <> old -> old ∉ replace old new s.
Proof.
  intros Hne Hin. unfold replace in Hin.
  apply list_elem_of_In, in_map_iff in Hin as (c & Hc & _).
  destruct (N.eqb_spec c old); congruence.
Qed.

(** X7. The path written in the begin and end markers never holds a
    backslash, whatever [os.path.relpath] returns: line 56 turns each
    one into a slash and leaves every other character as it is. *)
Theorem marker_path_has_no_backslash
    (os : OS) (src_root full_path : path) :
  (BACKSLASH ∉ rel_path_of os src_root full_path)
  /\ (BACKSLASH ∉ begin_marker (rel_path_of os src_root full_path))
  /\ (BACKSLASH ∉ end_marker (rel_path_of os src_root full_path))
  /\ (BACKSLASH ∉ relpath os full_path src_root ->
      rel_path_of os src_root full_path = relpath os full_path src_root).
Proof.
  assert (H : BACKSLASH ∉ rel_path_of os src_root full_path).
  { apply replace_removes. discriminate. }
  split; [exact H|]. split; [|split].
  - unfold begin_marker. rewrite !elem_of_app.
    intros [Hin | [Hin | [Hin | Hin]]]; [revert Hin; by_decide | contradiction
      | revert Hin; by_decide | revert Hin; by_decide].
  - unfold end_marker. rewrite !elem_of_app.
    intros [Hin | [Hin | [Hin | Hin]]]; [revert Hin; by_decide | contradiction
      | revert Hin; by_decide | revert Hin; by_decide].
  - unfold rel_path_of, replace. intros Hn.
    induction (relpath os full_path src_root) as [|c s IH]; [reflexivity|].
    simpl. destruct (N.eqb_spec c BACKSLASH) as [->|_].
    + exfalso. apply Hn. left.
    + f_equal. apply IH. intros Hin. apply Hn. right. exact Hin.
Qed.

Lemma marker_path_has_no_backslash_witness :
  rel_path_of Demo.os Demo.cwd Demo.sse2 = py "simde/x86/sse2.h".
Proof.
  rewrite (proj2 (proj2 (proj2 (marker_path_has_no_backslash
                                  Demo.os Demo.cwd Demo.sse2)))).
  - reflexivity.
  - by_decide.
Defined.

(** ** What makes a call raise *)





(** ** [main]: missing headers, errors, completion *)

Section MainMore.

Variable env : Env.
Variable args : Args.

Local Notation "'step'" :=
  (fun fuel =>
     amalgamate_header env fuel (source_dir_of env args) (simde_dir_of env args)
       (getcwd env) (git_id_of env args)).

Lemma header_step_out fuel rel_path d d' :
  step fuel rel_path d = Done d' ->
  out d `prefix_of` out d'
  /\ (path_exists env (source_of env args rel_path) = false ->
      py "Warning: Source file '" ++ source_of env args rel_path
      ++ py "' not found. Skipping." ∈ out d').
Proof.
  unfold amalgamate_header. fold (source_of env args rel_path).
  destruct (path_exists env (source_of env args rel_path)).
  - destruct (amalgamate _ _ _ _ _ _) as [st| |] eqn:Hr; try discriminate.
    intros E; inversion E; subst; clear E. cbn [out]. split; [|discriminate].
    assert (Hf : final (amalgamate env (getcwd env) (git_id_of env args) fuel
                          (source_of env args rel_path)
                          {| stream := []; already_included := [];
                             console := out d |}) = Some st)
      by (rewrite Hr; reflexivity).
    apply amalgamate_extends in Hf as [(_ & _ & Hc) _]. exact Hc.
  - intros E; inversion E; subst; clear E. cbn [out say]. split.
    + apply prefix_app_r. reflexivity.
    + intros _. apply elem_of_app. right. left.
Qed.

Lemma headers_out fuel files : forall d d',
  for_each (step fuel) files d = Done d' ->
  out d `prefix_of` out d'
  /\ forall rel_path, rel_path ∈ files ->
       path_exists env (source_of env args rel_path) = false ->
       py "Warning: Source file '" ++ source_of env args rel_path
       ++ py "' not found. Skipping." ∈ out d'.
Proof.
  induction files as [|r files IH]; intros d d' H; simpl in H.
  - inversion H; subst. split; [reflexivity|]. intros x Hx. inversion Hx.
  - destruct (step fuel r d) as [d1| |] eqn:H1; try discriminate.
    apply header_step_out in H1 as [Hp1 Hw1].
    apply IH in H as [Hp Hw].
    split; [etransitivity; eauto|].
    intros x Hx Hmiss. apply elem_of_cons in Hx as [-> | Hx]; [|auto].
    destruct Hp as [k ->]. apply elem_of_app. left. auto.
Qed.


Lemma main_with_split fuel files :
  main_with env fuel files args
  = main_finish env args (for_each (step fuel) files (main_start env args files)).
Proof.
  unfold main_with, main_finish, main_start, simde_dir_of, git_id_of,
    license_dest, archive_name_of, base_dir_of, output_dir_of, source_dir_of.
  destruct (for_each _ _ _); reflexivity.
Qed.


End MainMore.

(** X9. A configured header whose source does not exist is skipped with
    a warning and the run goes on: when [main] completes, the archive
    holds one entry for each configured header that exists, one for the
    license when [COPYING] exists, and nothing else, and the console
    holds the warning of every header that was missing. *)
Theorem missing_headers_skipped
    (env : Env) (fuel : nat) (args : Args) (files : list path) (d : disk)
    (Hdistinct :
       NoDup ((dest_of env args <$> files) ++ (license_files env args).*1))
    (Hdone : main_with env fuel files args = Done d) :
  (exists entries,
     archive d = Some (archive_name_of env args, entries)
     /\ entries ≡ₚ
          archive_entry env (output_dir_of args)
            <$> ((header_file env fuel args <$> present env args files)
                 ++ license_files env args)
     /\ length entries
        = (length (present env args files)
           + length (license_files env args))%nat)
  /\ forall rel_path, rel_path ∈ files ->
       path_exists env (source_of env args rel_path) = false ->
       py "Warning: Source file '" ++ source_of env args rel_path
       ++ py "' not found. Skipping." ∈ out d.
Proof.
  split.
  - apply main_with_done in Hdone as [Ht Ha].
    apply NoDup_app in Hdistinct as (Hnd & Hdisj & _).
    assert (Hndp : NoDup (dest_of env args <$> present env args files)).
    { eapply sublist_NoDup; [exact Hnd|].
      apply fmap_sublist, sublist_filter. }
    pose proof (foldl_add_header_list env fuel args _ ∅ Hndp
                  (fun _ _ => lookup_empty _)) as Hlist.
    rewrite map_to_list_empty, app_nil_r in Hlist.
    assert (Hentries :
      map_to_list (tree d)
      ≡ₚ (header_file env fuel args <$> present env args files)
         ++ license_files env args).
    { rewrite Ht. unfold license_files in *.
      destruct (path_exists env (py "COPYING")).
      - rewrite map_to_list_insert.
        + rewrite Hlist. apply Permutation_cons_append.
        + destruct (foldl _ _ _ !! license_dest env args) as [v|] eqn:Hl;
            [|reflexivity].
          exfalso. apply elem_of_map_to_list in Hl. rewrite Hlist in Hl.
          apply list_elem_of_fmap in Hl as (r & E & Hr).
          inversion E as [[Ed Ev]].
          apply (Hdisj (dest_of env args r)).
          * apply list_elem_of_fmap_2.
            apply list_elem_of_filter in Hr as [_ Hr]. exact Hr.
          * simpl. rewrite <- Ed. left.
      - rewrite app_nil_r. exact Hlist. }
    exists (zip_entries env (output_dir_of args) (tree d)).
    split; [exact Ha|].
    assert (Hzip : zip_entries env (output_dir_of args) (tree d)
                   = archive_entry env (output_dir_of args)
                       <$> map_to_list (tree d)).
    { unfold zip_entries. apply map_ext. intros [p f]. reflexivity. }
    rewrite Hzip. split.
    + rewrite Hentries. reflexivity.
    + rewrite length_fmap, Hentries, length_app, length_fmap. reflexivity.
  - intros rel Hin Hmiss. rewrite main_with_split in Hdone.
    destruct (for_each _ _ _) as [d1| |] eqn:Hl; try discriminate.
    apply headers_out in Hl as [_ Hw].
    specialize (Hw rel Hin Hmiss).
    unfold main_finish in Hdone. inversion Hdone; subst d; clear Hdone.
    cbn [out say]. apply elem_of_app. left. apply elem_of_app. left.
    destruct (path_exists env (py "COPYING")); exact Hw.
Qed.

Lemma demo_small_distinct :
  NoDup ((dest_of Demo.env Demo.args <$> EXPECTED_FILES)
         ++ (license_files Demo.env Demo.args).*1).
Proof. by_decide. Qed.

Lemma missing_headers_skipped_witness :
  (exists entries,
     archive Demo.small = Some (py "/out/simde-0.8.4.zip", entries)
     /\ length entries = 3%nat)
  /\ py "Warning: Source file '/repo/simde/arm/neon.h' not found. Skipping."
     ∈ out Demo.small.
Proof.
  destruct (missing_headers_skipped Demo.env 8 Demo.args EXPECTED_FILES
              Demo.small demo_small_distinct demo_small)
    as [(entries & Ha & _ & Hlen) Hw].
  split.
  - exists entries. split; [exact Ha|]. rewrite Hlen. reflexivity.
  - apply (Hw (py "arm/neon.h")); [by_decide | reflexivity].
Defined.







(** X12. The file that [main] writes for a configured header that
    exists and opens starts with the notice and the version line, goes
    on with the begin marker of the header's own canonical path and
    ends with the matching end marker.  The version line carries the
    [--git-hash] value when one is given and not empty, otherwise the
    output of [git rev-parse HEAD] in the source directory, otherwise
    [unknown]. *)
Theorem header_file_format
    (env : Env) (fuel : nat) (args : Args) (files : list path) (d : disk)
    (H : path) (input_file : list pystr)
    (Hdistinct :
       NoDup ((dest_of env args <$> files) ++ (license_files env args).*1))
    (Hdone : main_with env fuel files args = Done d)
    (Hin : H ∈ files)
    (Hexists : path_exists env (source_of env args H) = true)
    (Hopen : open_read env (source_of env args H) = inr input_file) :
  let rel_path_str :=
    rel_path_of env (getcwd env) (realpath env (source_of env args H)) in
  let git_id :=
    or_else (git_hash args)
      match git_rev_parse env (abspath env (source args)) with
      | Some id => id
      | None => py "unknown"
      end in
  exists written,
    tree d !! dest_of env args H
    = Some (Text (banner_notice ++ banner_version git_id
                  ++ begin_marker rel_path_str
                  ++ written
                  ++ end_marker rel_path_str)).
Proof.
  cbv zeta.
  assert (Hgit : or_else (git_hash args)
                   match git_rev_parse env (abspath env (source args)) with
                   | Some id => id
                   | None => py "unknown"
                   end = git_id_of env args).
  { unfold git_id_of, get_git_id, source_dir_of, or_else.
    destruct (git_hash args) as [[|c s]|]; reflexivity. }
  rewrite Hgit.
  rewrite (main_with_lookup env fuel args files d H Hdistinct Hdone Hin Hexists).
  destruct (main_with_standalone env fuel args files d H Hdone Hin Hexists)
    as [st Hst].
  rewrite Hst. cbn [text_of].
  unfold standalone in Hst.
  destruct fuel as [|fuel]; [discriminate|].
  apply (amalgamate_fresh_open_stream env (getcwd env) (git_id_of env args)
           fuel _ _ _ input_file) in Hst as [written Hw].
  - exists written. rewrite Hw. reflexivity.
  - intros Hx. inversion Hx.
  - exact Hopen.
Qed.

Lemma header_file_format_witness :
  exists written,
    tree Demo.small !! py "/out/simde-0.8.4/simde/x86/mmx.h"
    = Some (Text (banner_notice ++ banner_version (py "0123abc")
                  ++ begin_marker (py "simde/x86/mmx.h")
                  ++ written
                  ++ end_marker (py "simde/x86/mmx.h"))).
Proof.
  refine (header_file_format Demo.env 8 Demo.args EXPECTED_FILES Demo.small
            (py "x86/mmx.h")
            [Demo.inc "../simde-common.h"; Demo.inc "sse2.h";
             py "/* mmx */" ++ [LF]]
            demo_small_distinct demo_small _ _ _).
  - by_decide.
  - reflexivity.
  - reflexivity.
Defined.
